(** * intelligent-home / ml-models: a shallow embedding and its properties

    The Python sources under [ml-models/src] are embedded function by
    function.  Conventions used throughout:

    - Python [float] and numpy [float64] scalars are IEEE binary64 values,
      modelled by Rocq's primitive [float]; comparisons are [PrimFloat.ltb],
      [PrimFloat.leb] and [PrimFloat.eqb], so a NaN compares false.
    - A raised exception is a value of [exn]; a call that may raise returns a
      [result].  A method that mutates [self] takes the object and returns the
      new one next to its outcome.
    - A Python [dict] is a [gmap]; a [list] of objects mutated in place is a
      Rocq list whose positions play the role of the object references.
    - Values that come from outside the repository (the clock, the file
      system, numpy's random generator, BLAS reductions) are arguments or
      section variables. *)

From Stdlib Require Import ZArith QArith Qcanon Floats Ascii String.
From stdpp Require Import gmap strings list pretty sorting.

Local Set Warnings "-inexact-float".
Local Open Scope string_scope.
Local Open Scope list_scope.
Local Open Scope stdpp_scope.

(** ** Exceptions and results *)

Inductive exn : Set :=
| ValueError | TypeError | KeyError | IndexError
| ZeroDivisionError | OverflowError | OSError.

Inductive result (A : Type) : Type :=
| Ok (a : A)
| Raise (e : exn).
Arguments Ok {A} a.
Arguments Raise {A} e.

#[export] Instance result_ret : MRet result := fun A a => Ok a.
#[export] Instance result_bind : MBind result := fun A B f r =>
  match r with Ok a => f a | Raise e => Raise e end.

Definition of_option {A} (e : exn) (o : option A) : result A :=
  match o with Some a => Ok a | None => Raise e end.

(** A [for] loop whose body may raise, and the same body run [n] times. *)
Fixpoint fold_result {A B} (f : A -> B -> result A) (a : A) (l : list B)
    : result A :=
  match l with
  | [] => Ok a
  | x :: l' => a' ← f a x; fold_result f a' l'
  end.

Fixpoint repeat_result {A} (n : nat) (f : A -> result A) (a : A) : result A :=
  match n with
  | O => Ok a
  | S n' => a' ← f a; repeat_result n' f a'
  end.

(** ** Scalars *)

(** [int] to [float64], as numpy does for a true division of integers. *)
Definition float_of_nat (n : nat) : float :=
  PrimFloat.of_uint63 (Uint63.of_Z (Z.of_nat n)).

(** Python's [int(x)] on a float: truncation toward zero; [ValueError] on a
    NaN and [OverflowError] on an infinity. *)
Definition int_of_float (f : float) : result Z :=
  match Prim2SF f with
  | S754_zero _ => Ok 0%Z
  | S754_finite s m e =>
      let mag := if (0 <=? e)%Z then (Z.pos m * 2 ^ e)%Z
                 else (Z.pos m / 2 ^ (- e))%Z in
      Ok (if s then (- mag)%Z else mag)
  | S754_infinity _ => Raise OverflowError
  | S754_nan => Raise ValueError
  end.

(** Python's two-argument [min(a, b)]: [b] when [b < a], else [a]. *)
Definition py_min (a b : float) : float :=
  if (b <? a)%float then b else a.

(** [x != y] on floats. *)
Definition float_neq (x y : float) : bool := negb (x =? y)%float.

(** ** models/anomaly_detection.py and training/anomaly_detection_trainer.py *)

Module AnomalyDetectionModel.

Record result_row : Type := {
  is_anomaly : bool;
  anomaly_score : float;
  severity : string
}.

(** The three [results.loc[...] = ...] assignments of [detect_anomalies],
    applied in source order to one row that starts as ['normal']. *)
Definition severity_of_score (score : float) : string :=
  let sev := "normal" in
  let sev := if (score <? -0.5)%float then "low" else sev in
  let sev := if (score <? -0.7)%float then "medium" else sev in
  let sev := if (score <? -0.9)%float then "high" else sev in
  sev.

(** [detect_anomalies]; [predictions] and [scores] are what [self.predict]
    returned for the rows of [data]. *)
Definition detect_anomalies (predictions : list Z) (scores : list float)
    (threshold : option float) : list result_row :=
  zip_with (fun p s =>
    {| is_anomaly := match threshold with
                     | Some t => (s <? t)%float
                     | None => (p =? -1)%Z
                     end;
       anomaly_score := s;
       severity := severity_of_score s |}) predictions scores.

End AnomalyDetectionModel.

Module AnomalyDetectionTrainer.

Definition calculate_severity (score : float) : string :=
  if (-0.1 <? score)%float then "low"
  else if (-0.3 <? score)%float then "medium"
  else if (-0.5 <? score)%float then "high"
  else "critical".

End AnomalyDetectionTrainer.

(** The four scores of the specification's example. *)
Definition sample_scores : list float := [-0.95; -0.8; -0.6; -0.2]%float.

(** ** models/predictive_maintenance.py *)

Module PredictiveMaintenanceModel.

Record assessment : Type := {
  device_id : string;
  health_status : string;
  priority : string;
  estimated_rul_days : float;
  anomaly_rate : float;
  recent_anomalies : nat;
  recommendation : string
}.

Record task : Type := {
  task_device_id : string;
  scheduled_date : string;
  task_priority : string;
  estimated_duration_hours : Z;
  reason : string;
  task_estimated_rul_days : float
}.

(** [pandas.Series.unique]: the distinct values in order of first
    appearance. *)
Fixpoint unique_from (seen : list string) (l : list string) : list string :=
  match l with
  | [] => []
  | x :: l' =>
      if decide (x ∈ seen) then unique_from seen l'
      else x :: unique_from (x :: seen) l'
  end.
Definition unique (l : list string) : list string := unique_from [] l.

(** Index of the rows selected by [data['device_id'] == device_id]. *)
Fixpoint indices_from (k : nat) (d : string) (col : list string) : list nat :=
  match col with
  | [] => []
  | x :: col' =>
      if decide (x = d) then k :: indices_from (S k) d col'
      else indices_from (S k) d col'
  end.

(** numpy's [a[indices]]: [IndexError] on an index out of bounds. *)
Definition take_indices {A} (a : list A) (idx : list nat) : result (list A) :=
  mapM (fun i => of_option IndexError (a !! i)) idx.

(** The [if / elif / else] that determines status and priority. *)
Definition classify (device_rul rate : float) : string * string :=
  if (device_rul <? 30)%float || (0.3 <? rate)%float then ("critical", "high")
  else if (device_rul <? 90)%float || (0.15 <? rate)%float then ("warning", "medium")
  else ("healthy", "low").

Definition _generate_recommendation (status : string) (rul rate : float)
    : result string :=
  if decide (status = "critical") then
    d ← int_of_float rul;
    Ok ("Immediate maintenance required. Device may fail within "
          +:+ pretty d +:+ " days.")
  else if decide (status = "warning") then
    d ← int_of_float rul;
    Ok ("Schedule maintenance soon. Estimated " +:+ pretty d
          +:+ " days remaining.")
  else Ok "Device operating normally. Continue regular monitoring.".

(** The two tests of [classify], as propositions. *)
Definition critical_cond (device_rul rate : float) : Prop :=
  (device_rul <? 30)%float = true \/ (0.3 <? rate)%float = true.
Definition warning_cond (device_rul rate : float) : Prop :=
  (device_rul <? 90)%float = true \/ (0.15 <? rate)%float = true.

Section Assess.
(** [numpy.ndarray.mean] of a one-dimensional [float64] array. *)
Variable mean : list float -> float.

Definition assess_one (data : list string) (anomalies : list Z)
    (rul_predictions : list float) (dev : string) : result assessment :=
  let device_indices := indices_from 0 dev data in
  device_anomalies ← take_indices anomalies device_indices;
  device_ruls ← take_indices rul_predictions device_indices;
  let device_rul := mean device_ruls in
  let hits := length (filter (fun a => a = (-1)%Z) device_anomalies) in
  let rate := (float_of_nat hits / float_of_nat (length device_anomalies))%float in
  let '(status, prio) := classify device_rul rate in
  rec ← _generate_recommendation status device_rul rate;
  Ok {| device_id := dev;
        health_status := status;
        priority := prio;
        estimated_rul_days := device_rul;
        anomaly_rate := rate;
        recent_anomalies := hits;
        recommendation := rec |}.

(** [assess_device_health]; [anomalies] and [rul_predictions] are what
    [self.detect_anomalies(data)] and [self.predict_rul(data)] returned,
    [data] is the [device_id] column, its rows labelled by position (the
    default index). *)
Definition assess_device_health (data : list string) (anomalies : list Z)
    (rul_predictions : list float) : result (list assessment) :=
  mapM (assess_one data anomalies rul_predictions) (unique data).
End Assess.

Section Schedule.
(** [datetime] values, [date + timedelta(days=d)] (which may raise) and
    [isoformat]. *)
Variable datetime : Type.
Variable plus_days : datetime -> float -> result datetime.
Variable isoformat : datetime -> string.

Definition priority_map : gmap string Z :=
  {[ "high" := 3%Z; "medium" := 2%Z; "low" := 1%Z ]}.

Definition sort_key (a : assessment) : result (Z * float) :=
  p ← of_option KeyError (priority_map !! priority a);
  Ok (p, estimated_rul_days a).

(** [<] on the key tuples: the first position where the components are
    unequal decides. *)
Definition key_lt (k1 k2 : Z * float) : bool :=
  if negb (k1.1 =? k2.1)%Z then (k1.1 <? k2.1)%Z
  else if float_neq k1.2 k2.2 then (k1.2 <? k2.2)%float
  else false.

(** [sorted(..., key=...)] is stable; it is modelled by a stable insertion
    sort on the keys computed beforehand. *)
Fixpoint insert_by_key {A} (x : (Z * float) * A) (l : list ((Z * float) * A))
    : list ((Z * float) * A) :=
  match l with
  | [] => [x]
  | y :: l' => if key_lt x.1 y.1 then x :: y :: l'
               else y :: insert_by_key x l'
  end.

Definition sorted_by_key {A} (l : list ((Z * float) * A)) : list A :=
  snd <$> foldl (fun acc x => insert_by_key x acc) [] l.

Definition schedule_one (current_date : datetime) (a : assessment)
    : result (list task) :=
  if decide (health_status a = "healthy") then Ok []
  else
    let days_until_maintenance :=
      if decide (priority a = "high") then
        py_min 7 (estimated_rul_days a * 0.5)%float
      else if decide (priority a = "medium") then
        py_min 30 (estimated_rul_days a * 0.7)%float
      else 90%float in
    maintenance_date ← plus_days current_date days_until_maintenance;
    Ok [ {| task_device_id := device_id a;
            scheduled_date := isoformat maintenance_date;
            task_priority := priority a;
            estimated_duration_hours := 2;
            reason := recommendation a;
            task_estimated_rul_days := estimated_rul_days a |} ].

(** [generate_maintenance_schedule]; [current_date] is the value of
    [datetime.now()]. *)
Definition generate_maintenance_schedule (current_date : datetime)
    (assessments : list assessment) (max_concurrent : Z)
    : result (list task) :=
  keyed ← mapM (fun a => k ← sort_key a; Ok (k, a)) assessments;
  let sorted_assessments := sorted_by_key keyed in
  tasks ← mapM (schedule_one current_date) sorted_assessments;
  Ok (concat tasks).
End Schedule.

(** The rank [priority_map] gives a priority (0 for any other string). *)
Definition priority_rank (p : string) : Z := default 0%Z (priority_map !! p).

End PredictiveMaintenanceModel.

(** ** services/model_deployment.py

    The JSON file that [_save_deployments] rewrites after each change is not
    modelled: the store is the in-memory [self.deployments]. *)

Module ModelDeploymentService.

Inductive metric : Type :=
| MInt (n : Z)
| MFloat (x : float).

Record ModelDeployment : Type := {
  model_name : string;
  version : string;
  environment : string;
  endpoint : string;
  deployed_at : string;
  status : string;
  metrics : gmap string metric
}.

(** [ModelDeployment.__init__]; [now] is [datetime.now().isoformat()]. *)
Definition new_deployment (name ver env ep now : string) : ModelDeployment :=
  {| model_name := name; version := ver; environment := env;
     endpoint := ep; deployed_at := now; status := "active";
     metrics := {[ "requests" := MInt 0; "errors" := MInt 0;
                   "avg_latency" := MFloat 0 ]} |}.

(** [d.status = st] on the object [d]. *)
Definition set_status (st : string) (d : ModelDeployment) : ModelDeployment :=
  {| model_name := model_name d; version := version d;
     environment := environment d; endpoint := endpoint d;
     deployed_at := deployed_at d; status := st; metrics := metrics d |}.

(** [d.metrics.update(new)]: the keys of [new] win. *)
Definition update_metrics_of (new : gmap string metric) (d : ModelDeployment)
    : ModelDeployment :=
  {| model_name := model_name d; version := version d;
     environment := environment d; endpoint := endpoint d;
     deployed_at := deployed_at d; status := status d;
     metrics := new ∪ metrics d |}.

(** [self.deployments]: per environment, the list of deployment objects.
    An object is referred to by its environment and its position in that
    list; objects are only ever appended, so positions are stable. *)
Abbreviation store := (gmap string (list ModelDeployment)).

(** [get_active_deployment]: the scan of [reversed(self.deployments[env])];
    the result is the object found together with its position. *)
Definition get_active_deployment (s : store) (env name : string)
    : option (nat * ModelDeployment) :=
  l ← s !! env;
  '(j, d) ← list_find (fun d => model_name d = name ∧ status d = "active")
                      (reverse l);
  Some (length l - 1 - j, d).

Definition deploy_model (s : store) (name ver env ep now : string)
    : store * ModelDeployment :=
  let deployment := new_deployment name ver env ep now in
  let s1 := match s !! env with
            | None => <[env := []]> s
            | Some _ => s
            end in
  let s2 := match get_active_deployment s1 env name with
            | Some (i, _) => alter (alter (set_status "inactive") i) env s1
            | None => s1
            end in
  (alter (fun l => l ++ [deployment]) env s2, deployment).

(** The objects selected by
    [[d for d in self.deployments[env] if d.model_name == name]], as
    positions in [self.deployments[env]]. *)
Fixpoint refs_from (k : nat) (name : string) (l : list ModelDeployment)
    : list nat :=
  match l with
  | [] => []
  | d :: l' =>
      if decide (model_name d = name) then k :: refs_from (S k) name l'
      else refs_from (S k) name l'
  end.

Definition rollback_deployment (s : store) (env name : string)
    : store * option ModelDeployment :=
  match s !! env with
  | None => (s, None)
  | Some l =>
      let deployments := refs_from 0 name l in
      if (length deployments <? 2)%nat then (s, None)
      else
        match deployments !! (length deployments - 1),
              deployments !! (length deployments - 2) with
        | Some current, Some previous =>
            let l1 := alter (set_status "rolled_back") current l in
            let l2 := alter (set_status "active") previous l1 in
            (<[env := l2]> s, l2 !! previous)
        | _, _ => (s, None)
        end
  end.

Definition update_metrics (s : store) (env name : string)
    (new : gmap string metric) : store :=
  match get_active_deployment s env name with
  | Some (i, _) => alter (alter (update_metrics_of new) i) env s
  | None => s
  end.

(** A call of the service. *)
Inductive call : Type :=
| Deploy (name ver env ep now : string)
| Rollback (env name : string)
| UpdateMetrics (env name : string) (new : gmap string metric).

Definition run_call (s : store) (c : call) : store :=
  match c with
  | Deploy name ver env ep now => (deploy_model s name ver env ep now).1
  | Rollback env name => (rollback_deployment s env name).1
  | UpdateMetrics env name new => update_metrics s env name new
  end.

Definition run (calls : list call) : store := foldl run_call ∅ calls.

(** What the status discipline depends on: the model name and the status
    of each record, by position. *)
Definition view (d : ModelDeployment) : string * string :=
  (model_name d, status d).

(** At most one active record per model name. *)
Definition single_active (v : list (string * string)) : Prop :=
  forall i j m, v !! i = Some (m, "active") -> v !! j = Some (m, "active") -> i = j.

(** An active record is followed by at most one record of its model. *)
Definition active_recent (v : list (string * string)) : Prop :=
  forall i j k m sj sk,
    v !! i = Some (m, "active") -> v !! j = Some (m, sj) -> v !! k = Some (m, sk) ->
    i < j -> j < k -> False.

(** Every record is filed under its own environment. *)
Definition filed (s : store) : Prop :=
  forall env l, s !! env = Some l -> Forall (fun d => environment d = env) l.

Definition store_ok (s : store) : Prop :=
  forall env l, s !! env = Some l ->
    single_active (view <$> l) /\ active_recent (view <$> l).

End ModelDeploymentService.

(** ** services/model_versioning.py

    The JSON file that [_save_versions] rewrites is not modelled: the store is
    the in-memory [self.versions]. *)

Module ModelVersioningService.

Record ModelVersion : Type := {
  version : string;
  model_path : string;
  metadata : gmap string string;
  created_at : string;
  checksum : string
}.

Abbreviation store := (gmap string (list ModelVersion)).

(** [str.split(sep)] for a one-character separator. *)
Fixpoint split_on (sep : ascii) (s : string) : list string :=
  match s with
  | EmptyString => [""]
  | String c s' =>
      match split_on sep s' with
      | [] => []
      | w :: ws => if Ascii.eqb c sep then "" :: w :: ws
                   else String c w :: ws
      end
  end.

Definition is_space (c : ascii) : bool :=
  let n := nat_of_ascii c in
  ((9 <=? n) && (n <=? 13) || (28 <=? n) && (n <=? 32))%nat.

Definition digit_of (c : ascii) : option Z :=
  let n := nat_of_ascii c in
  if ((48 <=? n) && (n <=? 57))%nat then Some (Z.of_nat (n - 48)) else None.

(** Digits, with single underscores allowed between digits. *)
Fixpoint int_digits (acc : Z) (after_digit : bool) (s : list ascii)
    : option Z :=
  match s with
  | [] => if after_digit then Some acc else None
  | c :: s' =>
      match digit_of c with
      | Some d => int_digits (10 * acc + d) true s'
      | None =>
          if Ascii.eqb c "_" && after_digit then int_digits acc false s'
          else None
      end
  end.

Fixpoint lstrip (s : list ascii) : list ascii :=
  match s with
  | c :: s' => if is_space c then lstrip s' else s
  | [] => []
  end.

(** Python's [int(s)] on an ASCII string: surrounding white space, an
    optional sign, decimal digits; [None] stands for [ValueError].  (The
    interpreter's limit on the number of digits is not modelled.) *)
Definition int_of_string (s : string) : option Z :=
  let body := lstrip (reverse (lstrip (reverse (list_ascii_of_string s)))) in
  match body with
  | "-"%char :: ds => Z.opp <$> int_digits 0 false ds
  | "+"%char :: ds => int_digits 0 false ds
  | ds => int_digits 0 false ds
  end.

(** The last two lines of [_generate_version], on [latest.version]: the
    unpacking of [map(int, v.split('.'))] into three integers and the
    formatted string. *)
Definition bump_patch (v : string) : result string :=
  match int_of_string <$> split_on "." v with
  | [Some major; Some minor; Some patch] =>
      Ok (pretty major +:+ "." +:+ pretty minor +:+ "."
            +:+ pretty (patch + 1)%Z)
  | _ => Raise ValueError
  end.

Definition _generate_version (s : store) (name : string) : result string :=
  match s !! name with
  | None => Ok "1.0.0"
  | Some l =>
      match last l with
      | None => Ok "1.0.0"
      | Some latest => bump_patch (version latest)
      end
  end.

Section Service.
(** [ModelVersion._calculate_checksum]: the SHA-256 of the file at a
    path, or the error raised when the file cannot be read. *)
Variable file_sha256 : string -> result string.

(** [created_at] and [registered_at] are the two readings of the clock. *)
Definition register_version (s : store) (name path : string)
    (ver : option string) (meta : option (gmap string string))
    (registered_at created_at : string) : store * result ModelVersion :=
  let made :=
    v ← match ver with
        | None => _generate_version s name
        | Some v => Ok v
        end;
    let meta := default ∅ meta in
    let meta := <["model_name" := name]> meta in
    let meta := <["registered_at" := registered_at]> meta in
    sum ← file_sha256 path;
    Ok {| version := v; model_path := path; metadata := meta;
          created_at := created_at; checksum := sum |} in
  match made with
  | Raise e => (s, Raise e)
  | Ok version_obj =>
      let s1 := match s !! name with
                | None => <[name := []]> s
                | Some _ => s
                end in
      (alter (fun l => l ++ [version_obj]) name s1, Ok version_obj)
  end.
End Service.

(** [get_version]: the first record, in list order, with that version. *)
Definition get_version (s : store) (name ver : string) : option ModelVersion :=
  l ← s !! name;
  snd <$> list_find (fun v => version v = ver) l.


(** [list_versions]: [self.versions.get(model_name, [])]. *)
Definition list_versions (s : store) (name : string) : list ModelVersion :=
  default [] (s !! name).

(** [delete_version]: the list is rebuilt without the records of that
    version; the result is [False] only for an unknown model. *)
Definition delete_version (s : store) (name ver : string) : store * bool :=
  match s !! name with
  | None => (s, false)
  | Some l => (<[name := filter (fun v => version v <> ver) l]> s, true)
  end.




(** Automatic registrations of a model, one after the other; the
    [k]-th reads the clock as [clock k]. *)
Fixpoint register_auto (file_sha256 : string -> result string) (s : store)
    (name path : string) (clock : nat -> string) (n : nat) : store :=
  match n with
  | O => s
  | S n' =>
      let s' := register_auto file_sha256 s name path clock n' in
      (register_version file_sha256 s' name path None None
         (clock n') (clock n')).1
  end.

End ModelVersioningService.

(** ** config/model_config.py *)

Module ModelConfig.

Inductive value : Type :=
| VInt (n : Z)
| VFloat (x : float)
| VInts (l : list Z)
| VStrs (l : list string).

(** A dict display: later keys overwrite earlier ones. *)
Definition dict_of {V} (items : list (string * V)) : gmap string V :=
  foldl (fun m kv => <[kv.1 := kv.2]> m) ∅ items.

Definition ENERGY_FORECASTING : gmap string value := dict_of [
  ("sequence_length", VInt 24);
  ("prediction_horizon", VInt 12);
  ("hidden_units", VInts [128; 64; 32]%Z);
  ("dropout_rate", VFloat 0.2);
  ("learning_rate", VFloat 0.001);
  ("batch_size", VInt 32);
  ("epochs", VInt 100);
  ("early_stopping_patience", VInt 10) ].

Definition ANOMALY_DETECTION : gmap string value := dict_of [
  ("contamination", VFloat 0.1);
  ("n_estimators", VInt 100);
  ("max_samples", VInt 256);
  ("threshold", VFloat 0.8);
  ("window_size", VInt 50) ].

Definition BEHAVIOR_PREDICTION : gmap string value := dict_of [
  ("sequence_length", VInt 48);
  ("hidden_units", VInts [256; 128; 64]%Z);
  ("dropout_rate", VFloat 0.3);
  ("learning_rate", VFloat 0.0005);
  ("batch_size", VInt 64);
  ("epochs", VInt 150) ].

Definition OCCUPANCY_DETECTION : gmap string value := dict_of [
  ("n_estimators", VInt 200);
  ("max_depth", VInt 10);
  ("min_samples_split", VInt 5);
  ("min_samples_leaf", VInt 2);
  ("features", VStrs ["motion"; "temperature"; "humidity"; "light"; "sound"]) ].

Definition PREDICTIVE_MAINTENANCE : gmap string value := dict_of [
  ("sequence_length", VInt 100);
  ("threshold", VFloat 0.7);
  ("warning_threshold", VFloat 0.5);
  ("features", VStrs ["usage_hours"; "error_count"; "temperature"; "vibration"]) ].

Definition configs : gmap string (gmap string value) := dict_of [
  ("energy_forecasting", ENERGY_FORECASTING);
  ("anomaly_detection", ANOMALY_DETECTION);
  ("behavior_prediction", BEHAVIOR_PREDICTION);
  ("occupancy_detection", OCCUPANCY_DETECTION);
  ("predictive_maintenance", PREDICTIVE_MAINTENANCE) ].

(** [configs.get(model_type, {})]. *)
Definition get_config (model_type : string) : gmap string value :=
  default ∅ (configs !! model_type).

(** The table of section 4.1 of the specification, row by row: family,
    key, value. *)
Definition spec_table : list (string * string * value) := [
  ("energy_forecasting", "sequence_length", VInt 24);
  ("energy_forecasting", "prediction_horizon", VInt 12);
  ("energy_forecasting", "hidden_units", VInts [128; 64; 32]%Z);
  ("energy_forecasting", "dropout_rate", VFloat 0.2);
  ("energy_forecasting", "learning_rate", VFloat 0.001);
  ("energy_forecasting", "batch_size", VInt 32);
  ("energy_forecasting", "epochs", VInt 100);
  ("energy_forecasting", "early_stopping_patience", VInt 10);
  ("anomaly_detection", "contamination", VFloat 0.1);
  ("anomaly_detection", "n_estimators", VInt 100);
  ("anomaly_detection", "max_samples", VInt 256);
  ("anomaly_detection", "threshold", VFloat 0.8);
  ("anomaly_detection", "window_size", VInt 50);
  ("behavior_prediction", "sequence_length", VInt 48);
  ("behavior_prediction", "hidden_units", VInts [256; 128; 64]%Z);
  ("behavior_prediction", "dropout_rate", VFloat 0.3);
  ("behavior_prediction", "learning_rate", VFloat 0.0005);
  ("behavior_prediction", "batch_size", VInt 64);
  ("behavior_prediction", "epochs", VInt 150);
  ("occupancy_detection", "n_estimators", VInt 200);
  ("occupancy_detection", "max_depth", VInt 10);
  ("occupancy_detection", "min_samples_split", VInt 5);
  ("occupancy_detection", "min_samples_leaf", VInt 2);
  ("occupancy_detection", "features",
     VStrs ["motion"; "temperature"; "humidity"; "light"; "sound"]);
  ("predictive_maintenance", "sequence_length", VInt 100);
  ("predictive_maintenance", "threshold", VFloat 0.7);
  ("predictive_maintenance", "warning_threshold", VFloat 0.5);
  ("predictive_maintenance", "features",
     VStrs ["usage_hours"; "error_count"; "temperature"; "vibration"]) ].

(** The preset the specification's table gives for a family: its rows. *)
Definition spec_preset (family : string) : list (string * value) :=
  omap (fun row => if decide (row.1.1 = family) then Some (row.1.2, row.2)
                   else None) spec_table.

Definition families : list string :=
  ["energy_forecasting"; "anomaly_detection"; "behavior_prediction";
   "occupancy_detection"; "predictive_maintenance"].

End ModelConfig.

(** ** models/occupancy_detection.py *)

Module OccupancyDetectionModel.

Section Events.
(** The type of the values of the [timestamp] column. *)
Variable T : Type.

Record event : Type := {
  timestamp : T;
  event_name : string;
  probability : float;
  confidence : float
}.

Definition make_event (ts : T) (prob : float) (is_occupied : bool) : event :=
  {| timestamp := ts;
     event_name := if is_occupied then "occupied" else "unoccupied";
     probability := prob;
     confidence := (PrimFloat.abs (prob - 0.5) * 2)%float |}.

(** One iteration of the loop, on [(current_state, events)]. *)
Definition change_step (threshold : float)
    (st : option bool * list event) (x : float * T)
    : option bool * list event :=
  let '(current_state, events) := st in
  let '(prob, ts) := x in
  let is_occupied := (threshold <=? prob)%float in
  match current_state with
  | None => (Some is_occupied, events ++ [make_event ts prob is_occupied])
  | Some cs =>
      if negb (Bool.eqb is_occupied cs) then
        (Some is_occupied, events ++ [make_event ts prob is_occupied])
      else (current_state, events)
  end.

(** The state carried by the last event emitted so far. *)
Definition emitted_state (events : list event) : option bool :=
  (fun e => bool_decide (event_name e = "occupied")) <$> last events.

(** [detect_occupancy_change]; [occupied_probs] is column 1 of what
    [self.predict_proba(data)] returned. *)
Definition detect_occupancy_change (occupied_probs : list float)
    (timestamps : list T) (threshold : float) : list event :=
  (foldl (change_step threshold) (None, []) (zip occupied_probs timestamps)).2.
End Events.

Arguments timestamp {T} _.
Arguments event_name {T} _.
Arguments probability {T} _.
Arguments confidence {T} _.
Arguments make_event {T} _ _ _.
Arguments emitted_state {T} _.
Arguments change_step {T} _ _ _.
Arguments detect_occupancy_change {T} _ _ _.

(** One iteration of the loop of [_calculate_avg_duration], on
    [(durations, current_duration)]. *)
Definition duration_step (st : list nat * nat) (label : Z) : list nat * nat :=
  let '(durations, current_duration) := st in
  if (label =? 1)%Z then (durations, current_duration + 1)
  else if (0 <? current_duration)%nat then (durations ++ [current_duration], 0)
  else (durations, current_duration).

(** The list [durations] when the function reaches its [return]. *)
Definition occupancy_durations (labels : list Z) : list nat :=
  let '(durations, current_duration) := foldl duration_step ([], 0) labels in
  if (0 <? current_duration)%nat then durations ++ [current_duration]
  else durations.

(** [_calculate_avg_duration]; [mean] is [numpy.mean] on a list of
    integers. *)
Definition _calculate_avg_duration (mean : list nat -> float)
    (labels : list Z) : float :=
  let durations := occupancy_durations labels in
  if decide (durations = []) then 0%float else mean durations.

(** No two successive events carry the same name. *)
Fixpoint alternating {T} (events : list (event T)) : Prop :=
  match events with
  | e1 :: ((e2 :: _) as rest) => event_name e1 <> event_name e2 /\ alternating rest
  | _ => True
  end.

End OccupancyDetectionModel.

(** ** models/recommendation_engine.py *)

Module RecommendationEngine.

Record engine : Type := {
  num_factors : nat;
  user_factors : list (list float);
  item_factors : list (list float);
  user_biases : list float;
  item_biases : list float;
  global_mean : float;
  user_to_idx : gmap string nat;
  item_to_idx : gmap string nat
}.

(** [__init__]. *)
Definition init (num_factors : nat) : engine :=
  {| num_factors := num_factors;
     user_factors := []; item_factors := [];
     user_biases := []; item_biases := [];
     global_mean := 0%float;
     user_to_idx := ∅; item_to_idx := ∅ |}.

(** [{x: idx for idx, x in enumerate(xs)}]. *)
Definition index_map (xs : list string) : gmap string nat :=
  foldl (fun m p => <[p.2 := p.1]> m) ∅ (imap (fun idx x => (idx, x)) xs).

(** A [rows] by [cols] array filled from a draw of the random generator. *)
Definition matrix_of (draw : nat -> nat -> float) (rows cols : nat)
    : list (list float) :=
  (fun i => (fun j => draw i j) <$> seq 0 cols) <$> seq 0 rows.

(** An engine whose index maps, global mean and array sizes are the given
    ones. *)
Definition fitted (U I : gmap string nat) (g : float) (nu ni : nat)
    (e : engine) : Prop :=
  user_to_idx e = U /\ item_to_idx e = I /\ global_mean e = g
  /\ length (user_biases e) = nu /\ length (user_factors e) = nu
  /\ length (item_biases e) = ni /\ length (item_factors e) = ni.

Section Engine.
(** [numpy.mean] of a list of ratings, and [numpy.dot] of two vectors. *)
Variable mean : list float -> float.
Variable dot : list float -> list float -> float.
(** The order in which a Python [set] of strings is iterated. *)
Variable set_iter : gset string -> list string.

Definition predict_rating (e : engine) (user item : string) : result float :=
  match user_to_idx e !! user, item_to_idx e !! item with
  | Some user_idx, Some item_idx =>
      ub ← of_option IndexError (user_biases e !! user_idx);
      ib ← of_option IndexError (item_biases e !! item_idx);
      uf ← of_option IndexError (user_factors e !! user_idx);
      itf ← of_option IndexError (item_factors e !! item_idx);
      Ok (global_mean e + ub + ib + dot uf itf)%float
  | _, _ => Ok (global_mean e)
  end.

(** The body of the inner loop of [fit].  [user_factor] is a view of the
    row of [self.user_factors], so the update of the item row reads the
    user row already updated. *)
Definition sgd_step (learning_rate regularization : float) (e : engine)
    (x : string * string * float) : result engine :=
  let '(user, item, rating) := x in
  user_idx ← of_option KeyError (user_to_idx e !! user);
  item_idx ← of_option KeyError (item_to_idx e !! item);
  prediction ← predict_rating e user item;
  let error := (rating - prediction)%float in
  user_factor ← of_option IndexError (user_factors e !! user_idx);
  item_factor ← of_option IndexError (item_factors e !! item_idx);
  let user_factor' :=
    zip_with (fun u i => u + learning_rate * (error * i - regularization * u))%float
             user_factor item_factor in
  let item_factor' :=
    zip_with (fun i u => i + learning_rate * (error * u - regularization * i))%float
             item_factor user_factor' in
  ub ← of_option IndexError (user_biases e !! user_idx);
  ib ← of_option IndexError (item_biases e !! item_idx);
  Ok {| num_factors := num_factors e;
        user_factors := <[user_idx := user_factor']> (user_factors e);
        item_factors := <[item_idx := item_factor']> (item_factors e);
        user_biases :=
          <[user_idx := (ub + learning_rate * (error - regularization * ub))%float]>
            (user_biases e);
        item_biases :=
          <[item_idx := (ib + learning_rate * (error - regularization * ib))%float]>
            (item_biases e);
        global_mean := global_mean e;
        user_to_idx := user_to_idx e;
        item_to_idx := item_to_idx e |}.

(** One epoch: the inner loop, then the RMSE that is printed, whose
    [total_error / len(interactions)] divides the integer 0 by 0 when
    there is no interaction. *)
Definition epoch (learning_rate regularization : float)
    (interactions : list (string * string * float)) (e : engine)
    : result engine :=
  e' ← fold_result (sgd_step learning_rate regularization) e interactions;
  if decide (interactions = []) then Raise ZeroDivisionError else Ok e'.

(** [fit]; [draw_users] and [draw_items] are the two draws of
    [np.random.normal].  The object a raising [fit] leaves behind is not
    modelled. *)
Definition fit (e : engine) (interactions : list (string * string * float))
    (epochs : nat) (learning_rate regularization : float)
    (draw_users draw_items : nat -> nat -> float) : result engine :=
  let users : gset string := list_to_set ((fun x => x.1.1) <$> interactions) in
  let items : gset string := list_to_set ((fun x => x.1.2) <$> interactions) in
  let ratings := (fun x => x.2) <$> interactions in
  let num_users := size users in
  let num_items := size items in
  let e0 :=
    {| num_factors := num_factors e;
       user_factors := matrix_of draw_users num_users (num_factors e);
       item_factors := matrix_of draw_items num_items (num_factors e);
       user_biases := replicate num_users 0%float;
       item_biases := replicate num_items 0%float;
       global_mean := mean ratings;
       user_to_idx := index_map (set_iter users);
       item_to_idx := index_map (set_iter items) |} in
  repeat_result epochs (epoch learning_rate regularization interactions) e0.
End Engine.

End RecommendationEngine.

(** ** models/time_series_forecasting.py

    The forecaster's arithmetic is modelled in exact rational arithmetic
    ([Qc]): its properties below are those of the algorithm, not of its
    rounding.  Exact rationals have no NaN: the mean of an empty series is 0
    here.  [window_size] and [forecast_horizon] are sizes, hence naturals. *)

Module TimeSeriesForecaster.

(** A two-dimensional array with its shape. *)
Record ndarray2 : Type := {
  shape0 : nat;
  shape1 : nat;
  rows : list (list Qc)
}.

Record forecaster : Type := {
  window_size : nat;
  forecast_horizon : nat;
  weights : option ndarray2;
  bias : option (list Qc);
  scaler_mean : Qc;
  scaler_std : Qc
}.

(** [__init__]. *)
Definition init (window_size forecast_horizon : nat) : forecaster :=
  {| window_size := window_size; forecast_horizon := forecast_horizon;
     weights := None; bias := None;
     scaler_mean := 0%Qc; scaler_std := 1%Qc |}.

Definition Qc_of_nat (n : nat) : Qc := Q2Qc (inject_Z (Z.of_nat n)).

Definition np_sum (l : list Qc) : Qc := foldr Qcplus 0%Qc l.

Definition np_mean (l : list Qc) : Qc := (np_sum l / Qc_of_nat (length l))%Qc.

(** [np.dot(v, W)] for a vector and a matrix: [ValueError] unless the length
    of [v] is the number of rows of [W]. *)
Definition np_dot (v : list Qc) (W : ndarray2) : result (list Qc) :=
  if decide (length v = shape0 W) then
    Ok ((fun j =>
           np_sum (zip_with (fun vi row => vi * default 0 (row !! j))%Qc
                            v (rows W)))
          <$> seq 0 (shape1 W))
  else Raise ValueError.

Section Forecaster.
(** The square root of [np.std]. *)
Variable sqrt : Qc -> Qc.

Definition np_std (l : list Qc) : Qc :=
  let m := np_mean l in
  sqrt (np_mean ((fun x => (x - m) * (x - m))%Qc <$> l)).

Definition normalize (st : forecaster) (data : list Qc)
    : forecaster * list Qc :=
  let m := np_mean data in
  let s := np_std data in
  let s := if decide (s = 0%Qc) then 1%Qc else s in
  ({| window_size := window_size st;
      forecast_horizon := forecast_horizon st;
      weights := weights st; bias := bias st;
      scaler_mean := m; scaler_std := s |},
   (fun x => (x - m) / s)%Qc <$> data).

Definition denormalize (st : forecaster) (data : list Qc) : list Qc :=
  (fun x => x * scaler_std st + scaler_mean st)%Qc <$> data.

Definition create_sequences (st : forecaster) (data : list Qc)
    : list (list Qc) * list (list Qc) :=
  let n := Z.to_nat (Z.of_nat (length data) - Z.of_nat (window_size st)
                     - Z.of_nat (forecast_horizon st) + 1) in
  ((fun i => take (window_size st) (drop i data)) <$> seq 0 n,
   (fun i => take (forecast_horizon st) (drop (i + window_size st) data))
     <$> seq 0 n).

(** The body of the inner loop of [train], on [(weights, bias)].  The
    vectors added or subtracted have equal lengths at every call. *)
Definition sgd_step (learning_rate : Qc) (p : ndarray2 * list Qc)
    (xy : list Qc * list Qc) : result (ndarray2 * list Qc) :=
  let '(W, b) := p in
  let '(x, y) := xy in
  d ← np_dot x W;
  let prediction := zip_with Qcplus d b in
  let error := zip_with Qcminus y prediction in
  Ok ({| shape0 := shape0 W; shape1 := shape1 W;
         rows := zip_with (fun row xi =>
                   zip_with (fun w ej => w + learning_rate * (xi * ej))%Qc
                            row error)
                 (rows W) x |},
      zip_with (fun bj ej => bj + learning_rate * ej)%Qc b error).

(** [train]; [randn i j] is entry [(i, j)] of the draw of
    [np.random.randn].  The result is the object after the call and the
    exception raised, if any. *)
Definition train (st : forecaster) (data : list Qc) (epochs : nat)
    (learning_rate : Qc) (randn : nat -> nat -> Qc)
    : forecaster * option exn :=
  let '(st1, normalized_data) := normalize st data in
  let '(X, y) := create_sequences st1 normalized_data in
  if decide (length X = 0) then (st1, Some ValueError)
  else
    let W0 :=
      {| shape0 := window_size st1; shape1 := forecast_horizon st1;
         rows := (fun i => (fun j => randn i j * Q2Qc (1 # 100))%Qc
                             <$> seq 0 (forecast_horizon st1))
                   <$> seq 0 (window_size st1) |} in
    let b0 := replicate (forecast_horizon st1) 0%Qc in
    let with_params W b :=
      {| window_size := window_size st1;
         forecast_horizon := forecast_horizon st1;
         weights := Some W; bias := Some b;
         scaler_mean := scaler_mean st1; scaler_std := scaler_std st1 |} in
    match repeat_result epochs
            (fun p => fold_result (sgd_step learning_rate) p (zip X y))
            (W0, b0) with
    | Ok (W, b) => (with_params W b, None)
    | Raise e => (with_params W0 b0, Some e)
    end.

(** [forecast].  [recent_data[-window_size:]] is the whole list when
    [window_size] is 0.  With [self.weights] still [None], [np.dot]
    multiplies each element by [None], which raises [TypeError] as soon
    as there is an element. *)
Definition forecast (st : forecaster) (recent_data : list Qc)
    : forecaster * result (list Qc) :=
  if decide (length recent_data < window_size st) then (st, Raise ValueError)
  else
    let recent_array :=
      if decide (window_size st = 0) then recent_data
      else drop (length recent_data - window_size st) recent_data in
    let normalized_recent :=
      (fun x => (x - scaler_mean st) / scaler_std st)%Qc <$> recent_array in
    let dotted :=
      match weights st with
      | Some W => np_dot normalized_recent W
      | None => if decide (normalized_recent = []) then Ok []
                else Raise TypeError
      end in
    (st,
     d ← dotted;
     prediction ← match bias st with
                  | Some b => Ok (zip_with Qcplus d b)
                  | None => if decide (d = []) then Ok []
                            else Raise TypeError
                  end;
     Ok (denormalize st prediction)).
End Forecaster.

(** The parameters a forecaster holds after a successful [train]: weights
    of shape [(window_size, forecast_horizon)] and a bias of length
    [forecast_horizon]. *)
Definition shaped (ws fh : nat) (p : ndarray2 * list Qc) : Prop :=
  shape0 p.1 = ws /\ shape1 p.1 = fh /\ length p.2 = fh.



Definition trained (st : forecaster) : Prop :=
  exists W b, weights st = Some W /\ bias st = Some b
              /\ shaped (window_size st) (forecast_horizon st) (W, b).


(** [deque(items, maxlen=n)]: the last [n] items. *)
Definition deque (maxlen : nat) (items : list Qc) : list Qc :=
  drop (length items - maxlen) items.

(** [l[-n:]]: the last [n] items, the whole list when [n] is 0. *)
Definition last_points (n : nat) (l : list Qc) : list Qc :=
  if decide (n = 0) then l else drop (length l - n) l.

(** [np.dot] of two vectors: [ValueError] unless the lengths agree. *)
Definition np_dot1 (v w : list Qc) : result Qc :=
  if decide (length v = length w) then Ok (np_sum (zip_with Qcmult v w))
  else Raise ValueError.

(** [self.weights[:, 0]]. *)
Definition first_column (weights : option ndarray2) : result (list Qc) :=
  match weights with
  | None => Raise TypeError
  | Some W =>
      if decide (shape1 W = 0) then Raise IndexError
      else Ok ((fun row => default 0%Qc (row !! 0)) <$> rows W)
  end.

(** [self.bias[0]]. *)
Definition first_bias (bias : option (list Qc)) : result Qc :=
  match bias with
  | None => Raise TypeError
  | Some b => of_option IndexError (b !! 0)
  end.

(** One iteration of the loop of [forecast_iterative], on
    [(forecasts, current_window)]. *)
Definition iterative_step (st : forecaster) (p : list Qc * list Qc)
    : result (list Qc * list Qc) :=
  let '(forecasts, current_window) := p in
  let normalized_window :=
    (fun x => (x - scaler_mean st) / scaler_std st)%Qc <$> current_window in
  column ← first_column (weights st);
  dotted ← np_dot1 normalized_window column;
  b0 ← first_bias (bias st);
  let next_prediction := (dotted + b0)%Qc in
  let denormalized_prediction :=
    (next_prediction * scaler_std st + scaler_mean st)%Qc in
  Ok (forecasts ++ [denormalized_prediction],
      deque (window_size st) (current_window ++ [denormalized_prediction])).

(** [forecast_iterative]. *)
Definition forecast_iterative (st : forecaster) (recent_data : list Qc)
    (steps : nat) : result (list Qc) :=
  p ← repeat_result steps (iterative_step st)
        ([], deque (window_size st) (last_points (window_size st) recent_data));
  Ok p.1.

(** [abs] on a number. *)
Definition py_abs (x : Qc) : Qc := if decide (x < 0)%Qc then (- x)%Qc else x.

(** The body of the loop of [detect_anomalies] at index [i]: the pair it
    appends, if any.  Whatever the [try] block raises is swallowed by the
    bare [except].  (A denominator equal to 0 needs [scaler_std] =
    -1e-10, which [np.std] never yields; the index is skipped then.) *)
Definition anomaly_at (st : forecaster) (data : list Qc) (threshold : Qc)
    (i : nat) : list (nat * Qc) :=
  let recent_data := take (window_size st) (drop (i - window_size st) data) in
  match (forecast st recent_data).2, data !! i with
  | Ok (f0 :: _), Some actual =>
      let error := py_abs (actual - f0) in
      let denominator := (scaler_std st + Q2Qc (1 # 10000000000))%Qc in
      if decide (denominator = 0%Qc) then []
      else
        let z_score := (error / denominator)%Qc in
        if decide (threshold < z_score)%Qc then [(i, z_score)] else []
  | _, _ => []
  end.

(** [detect_anomalies]: the indices from [window_size] to the end. *)
Definition detect_anomalies (st : forecaster) (data : list Qc)
    (threshold : Qc) : list (nat * Qc) :=
  concat (anomaly_at st data threshold
            <$> seq (window_size st) (length data - window_size st)).

End TimeSeriesForecaster.

(** * Properties *)

(** ** Results and loops *)

Lemma mapM_Ok_elem {A B} (f : A -> result B) (l : list A) (out : list B) :
  mapM f l = Ok out ->
  forall b, b ∈ out -> exists a, a ∈ l /\ f a = Ok b.
Proof.
  revert out. induction l as [|x l IH]; intros out Hm b Hb.
  - cbn in Hm. injection Hm as <-. by apply elem_of_nil in Hb.
  - cbn in Hm. destruct (f x) as [y|e] eqn:Hfx; cbn in Hm; [|discriminate].
    destruct (mapM f l) as [k|e] eqn:Hk; cbn in Hm; [|discriminate].
    injection Hm as <-. apply elem_of_cons in Hb as [->|Hb].
    + exists x. split; [left | done].
    + destruct (IH k eq_refl b Hb) as (a & Ha & Hfa).
      exists a. split; [by right | done].
Qed.

(** ** Severity of anomaly scores *)

Section Severity.
Import AnomalyDetectionModel AnomalyDetectionTrainer.

(** C1, as stated, fails: on the scores -0.95, -0.8, -0.6, -0.2 the
    trainer's [calculate_severity] yields critical, critical, critical,
    medium, which is not the claimed critical, critical, high, low. *)
Lemma C1_trainer_severities_differ_from_claim :
  calculate_severity <$> sample_scores
    = ["critical"; "critical"; "critical"; "medium"]
  /\ calculate_severity <$> sample_scores
    <> ["critical"; "critical"; "high"; "low"].
Proof. split; [reflexivity | discriminate]. Qed.

(** C1, amended: on the scores -0.95, -0.8, -0.6, -0.2 [detect_anomalies]
    assigns the severities high, medium, low, normal (whatever the
    predictions and the threshold), [calculate_severity] returns critical,
    critical, critical, medium, and the two schemes disagree on each of the
    four scores. *)
Theorem C1_severity_schemes :
  (forall p1 p2 p3 p4 threshold,
      severity <$> detect_anomalies [p1; p2; p3; p4] sample_scores threshold
        = ["high"; "medium"; "low"; "normal"])
  /\ calculate_severity <$> sample_scores
       = ["critical"; "critical"; "critical"; "medium"]
  /\ Forall (fun s => severity_of_score s <> calculate_severity s) sample_scores.
Proof.
  split; [|split].
  - intros. reflexivity.
  - reflexivity.
  - unfold sample_scores. repeat constructor; discriminate.
Qed.
End Severity.

(** ** Device health *)

Section DeviceHealth.
Import PredictiveMaintenanceModel.

Lemma classify_cases (rul rate : float) :
  let C := critical_cond rul rate in
  let W := warning_cond rul rate in
  let status := (classify rul rate).1 in
  let prio := (classify rul rate).2 in
  (status = "critical" <-> C) /\ (prio = "high" <-> C)
  /\ (status = "warning" <-> ~ C /\ W) /\ (prio = "medium" <-> ~ C /\ W)
  /\ (status = "healthy" <-> ~ C /\ ~ W) /\ (prio = "low" <-> ~ C /\ ~ W).
Proof.
  unfold critical_cond, warning_cond, classify.
  destruct (rul <? 30)%float, (0.3 <? rate)%float,
           (rul <? 90)%float, (0.15 <? rate)%float; cbn;
    repeat split; intros; try discriminate; try tauto;
    try (intuition discriminate).
Qed.

(** C2: every assessment returned by [assess_device_health] carries the
    mean RUL and the anomaly rate of its device, and its status is critical
    (priority high) exactly when mean RUL < 30 or anomaly rate > 0.3,
    otherwise warning (priority medium) exactly when mean RUL < 90 or
    anomaly rate > 0.15, otherwise healthy (priority low); with anomaly
    rate 0, RUL 29 is critical, RUL 30 is warning and RUL 91 is healthy. *)
Theorem C2_assess_device_health_classification
    (mean : list float -> float) (data : list string) (anomalies : list Z)
    (rul_predictions : list float) (out : list assessment) :
  assess_device_health mean data anomalies rul_predictions = Ok out ->
  (forall a, a ∈ out ->
     (exists device_anomalies device_ruls,
         take_indices anomalies (indices_from 0 (device_id a) data)
           = Ok device_anomalies
         /\ take_indices rul_predictions (indices_from 0 (device_id a) data)
           = Ok device_ruls
         /\ estimated_rul_days a = mean device_ruls
         /\ anomaly_rate a
            = (float_of_nat (length (filter (fun x => x = (-1)%Z) device_anomalies))
               / float_of_nat (length device_anomalies))%float)
     /\ let C := critical_cond (estimated_rul_days a) (anomaly_rate a) in
        let W := warning_cond (estimated_rul_days a) (anomaly_rate a) in
        (health_status a = "critical" <-> C) /\ (priority a = "high" <-> C)
        /\ (health_status a = "warning" <-> ~ C /\ W)
        /\ (priority a = "medium" <-> ~ C /\ W)
        /\ (health_status a = "healthy" <-> ~ C /\ ~ W)
        /\ (priority a = "low" <-> ~ C /\ ~ W))
  /\ classify 29 0 = ("critical", "high")
  /\ classify 30 0 = ("warning", "medium")
  /\ classify 91 0 = ("healthy", "low").
Proof.
  intros Hout. split; [|by repeat split].
  intros a Ha.
  destruct (mapM_Ok_elem _ _ _ Hout a Ha) as (dev & _ & Hone).
  unfold assess_one in Hone.
  destruct (take_indices anomalies _) as [das|] eqn:Hdas; cbn in Hone; [|discriminate].
  destruct (take_indices rul_predictions _) as [drs|] eqn:Hdrs; cbn in Hone; [|discriminate].
  pose proof (classify_cases (mean drs)
    (float_of_nat (length (filter (fun x => x = (-1)%Z) das))
     / float_of_nat (length das))%float) as Hc.
  destruct (classify _ _) as [st pr] eqn:Hcl.
  destruct (_generate_recommendation _ _ _) as [rec|]; cbn in Hone; [|discriminate].
  injection Hone as <-. cbn in *. split; [|exact Hc].
  exists das, drs. by rewrite Hdas, Hdrs.
Qed.

(** C2 on one device with a single row, whose RUL is 29. *)
Lemma C2_assess_device_health_witness :
  exists out,
    assess_device_health (fun l => default 0%float (head l))
      ["lamp"] [1%Z] [29%float] = Ok out
    /\ forall a, a ∈ out ->
         (health_status a = "critical"
          <-> critical_cond (estimated_rul_days a) (anomaly_rate a)).
Proof.
  eexists. split; [reflexivity|]. intros a Ha.
  destruct (C2_assess_device_health_classification
              (fun l => default 0%float (head l)) ["lamp"] [1%Z] [29%float]
              _ eq_refl) as [H _].
  destruct (H a Ha) as [_ [Hc _]]. exact Hc.
Defined.
End DeviceHealth.

(** ** Maintenance schedule *)

(** C9: for every list of assessments and every current time, the schedule
    produced by [generate_maintenance_schedule] (or the exception it raises)
    is the same for any two values of [max_concurrent]. *)
Theorem C9_max_concurrent_has_no_influence
    (datetime : Type) (plus_days : datetime -> float -> result datetime)
    (isoformat : datetime -> string) (current_date : datetime)
    (assessments : list PredictiveMaintenanceModel.assessment)
    (max_concurrent1 max_concurrent2 : Z) :
  PredictiveMaintenanceModel.generate_maintenance_schedule
    datetime plus_days isoformat current_date assessments max_concurrent1
  = PredictiveMaintenanceModel.generate_maintenance_schedule
    datetime plus_days isoformat current_date assessments max_concurrent2.
Proof. reflexivity. Qed.

(** A run with [max_concurrent] = 1: both devices are scheduled, the one
    with the lower priority key first. *)
Example schedule_ignores_limit :
  let a1 := PredictiveMaintenanceModel.Build_assessment
              "pump" "critical" "high" 10 0.5 3 "r1" in
  let a2 := PredictiveMaintenanceModel.Build_assessment
              "fan" "warning" "medium" 60 0.2 1 "r2" in
  (fun t => (PredictiveMaintenanceModel.task_device_id t,
             PredictiveMaintenanceModel.scheduled_date t))
    <$> match PredictiveMaintenanceModel.generate_maintenance_schedule
                float (fun now d => Ok (now + d)%float)
                (fun d => if (d <? 10)%float then "within 10 days" else "later")
                0%float [a1; a2] 1
        with Ok tasks => tasks | Raise _ => [] end
  = [("fan", "later"); ("pump", "within 10 days")].
Proof. reflexivity. Qed.

(** ** Configuration registry *)

Section Config.
Import ModelConfig.

Lemma configs_unknown (k : string) : k ∉ families -> configs !! k = None.
Proof.
  intros Hk. unfold families in Hk.
  repeat (apply not_elem_of_cons in Hk as [? Hk]).
  unfold configs, dict_of. cbn [foldl fst snd].
  by repeat (rewrite lookup_insert_ne by done).
Qed.

(** C5: for each of the five family keys [get_config] returns the map made
    of the rows the table of section 4.1 gives for that family, and for
    every other key it returns the empty map. *)
Theorem C5_get_config_presets :
  (forall family, family ∈ families ->
      get_config family = dict_of (spec_preset family))
  /\ (forall k, k ∉ families -> get_config k = ∅).
Proof.
  split.
  - intros family Hf. unfold families in Hf.
    repeat (apply elem_of_cons in Hf as [->|Hf]; [vm_compute; reflexivity|]).
    by apply elem_of_nil in Hf.
  - intros k Hk. unfold get_config. by rewrite configs_unknown.
Qed.
End Config.

(** ** Occupancy changes *)

Section Occupancy.
Import OccupancyDetectionModel.
Context {T : Type}.
Implicit Types (rows : list (float * T)) (events : list (event T)).

Lemma emitted_state_snoc events (ts : T) (prob : float) (b : bool) :
  emitted_state (events ++ [make_event ts prob b]) = Some b.
Proof. unfold emitted_state. rewrite last_snoc. by destruct b. Qed.




End Occupancy.


(** ** Appending to a list stored in a map *)

Lemma append_in_map {V} (s : gmap string (list V)) (k : string) (x : V) :
  alter (fun l => l ++ [x]) k
        (match s !! k with None => <[k := []]> s | Some _ => s end)
  = <[k := default [] (s !! k) ++ [x]]> s.
Proof.
  apply map_eq. intros j. destruct (decide (k = j)) as [<-|Hne].
  - rewrite lookup_alter_eq, lookup_insert_eq.
    destruct (s !! k) as [l|] eqn:Hk; cbn.
    + by rewrite Hk.
    + by rewrite lookup_insert_eq.
  - rewrite lookup_alter_ne, lookup_insert_ne by done.
    destruct (s !! k); [done|]. by rewrite lookup_insert_ne.
Qed.

(** ** Model versions *)

Section Versioning.
Import ModelVersioningService.
Variable file_sha256 : string -> result string.



Lemma generate_version_last (s : store) (name : string) :
  _generate_version s name
  = match last (default [] (s !! name)) with
    | None => Ok "1.0.0"
    | Some latest => bump_patch (version latest)
    end.
Proof. unfold _generate_version. by destruct (s !! name). Qed.

End Versioning.


(** ** Deployments: the status discipline on views *)

Section DeploymentViews.
Import ModelDeploymentService.
Implicit Types v : list (string * string).

Lemma discipline_append v v2 (name : string) :
  single_active v -> active_recent v ->
  length v2 = length v ->
  (forall idx m st, v2 !! idx = Some (m, st) -> m <> name -> v !! idx = Some (m, st)) ->
  (forall idx, v2 !! idx <> Some (name, "active")) ->
  single_active (v2 ++ [(name, "active")])
  /\ active_recent (v2 ++ [(name, "active")])
  /\ forall i, (v2 ++ [(name, "active")]) !! i = Some (name, "active") ->
               i = length v2.
Proof.
  intros HA HB Hlen Hother Hnone.
  assert (Hlast : forall i, (v2 ++ [(name, "active")]) !! i = Some (name, "active")
                            -> i = length v2).
  { intros i Hi. apply lookup_snoc_Some in Hi as [[_ Hi]|[-> _]]; [|done].
    by apply Hnone in Hi. }
  assert (Hold : forall i m st, m <> name ->
            (v2 ++ [(name, "active")]) !! i = Some (m, st) -> v !! i = Some (m, st)).
  { intros i m st Hm Hi. apply lookup_snoc_Some in Hi as [[_ Hi]|[_ Hi]].
    - by apply Hother.
    - congruence. }
  split; [|split; [|exact Hlast]].
  - intros i j m Hi Hj. destruct (decide (m = name)) as [->|Hm].
    + apply Hlast in Hi, Hj. congruence.
    + eapply HA; by apply Hold.
  - intros i j k m sj sk Hi Hj Hk Hij Hjk. destruct (decide (m = name)) as [->|Hm].
    + apply Hlast in Hi. apply lookup_lt_Some in Hk.
      rewrite length_app in Hk. cbn in Hk. lia.
    + eapply (HB i j k); eauto using Hold.
Qed.

Lemma discipline_rollback v (p c : nat) (name : string) :
  single_active v -> active_recent v ->
  p < c ->
  (exists sp, v !! p = Some (name, sp)) ->
  (exists sc, v !! c = Some (name, sc)) ->
  (forall idx st, v !! idx = Some (name, st) -> idx = c \/ idx = p \/ idx < p) ->
  let v' := alter (fun x => (x.1, "active")) p
              (alter (fun x => (x.1, "rolled_back")) c v) in
  single_active v' /\ active_recent v'.
Proof.
  intros HA HB Hpc [sp Hp] [sc Hc] Hrefs v'.
  assert (Hp' : v' !! p = Some (name, "active")).
  { unfold v'. rewrite list_lookup_alter_eq, list_lookup_alter_ne by lia.
    by rewrite Hp. }
  assert (Hc' : v' !! c = Some (name, "rolled_back")).
  { unfold v'. rewrite list_lookup_alter_ne, list_lookup_alter_eq by lia.
    by rewrite Hc. }
  assert (Hrest : forall idx, idx <> p -> idx <> c -> v' !! idx = v !! idx).
  { intros idx ? ?. unfold v'. by rewrite !list_lookup_alter_ne by done. }
  assert (Hmodel : forall idx m st, v' !! idx = Some (m, st) ->
            exists st0, v !! idx = Some (m, st0)).
  { intros idx m st H. destruct (decide (idx = p)) as [->|?].
    - rewrite Hp' in H. injection H as <- <-. eauto.
    - destruct (decide (idx = c)) as [->|?].
      + rewrite Hc' in H. injection H as <- <-. eauto.
      + rewrite Hrest in H by done. eauto. }
  assert (Hother : forall idx m st, m <> name -> v' !! idx = Some (m, st) ->
            v !! idx = Some (m, st)).
  { intros idx m st Hm H. destruct (decide (idx = p)) as [->|?].
    - rewrite Hp' in H. congruence.
    - destruct (decide (idx = c)) as [->|?].
      + rewrite Hc' in H. congruence.
      + by rewrite Hrest in H. }
  assert (Hact : forall idx, v' !! idx = Some (name, "active") -> idx = p).
  { intros idx H. destruct (decide (idx = p)) as [->|?]; [done|].
    destruct (decide (idx = c)) as [->|?].
    - rewrite Hc' in H. discriminate.
    - rewrite Hrest in H by done.
      destruct (Hrefs _ _ H) as [?|[?|Hlt]]; [done..|].
      destruct (HB idx p c name sp sc); auto. }
  split.
  - intros i j m Hi Hj. destruct (decide (m = name)) as [->|Hm].
    + apply Hact in Hi, Hj. congruence.
    + eapply HA; by apply Hother.
  - intros i j k m sj sk Hi Hj Hk Hij Hjk. destruct (decide (m = name)) as [->|Hm].
    + apply Hact in Hi. subst i.
      destruct (Hmodel _ _ _ Hj) as [sj0 Hj0]. destruct (Hmodel _ _ _ Hk) as [sk0 Hk0].
      destruct (Hrefs _ _ Hj0) as [?|[?|?]], (Hrefs _ _ Hk0) as [?|[?|?]]; lia.
    + eapply (HB i j k); eauto using Hother.
Qed.
End DeploymentViews.

(** ** Deployments: the service calls *)

Section Deployments.
Import ModelDeploymentService.
Implicit Types (s : store) (l : list ModelDeployment).

Lemma get_active_deployment_Some s (env name : string) (i : nat) d :
  get_active_deployment s env name = Some (i, d) ->
  exists l, s !! env = Some l /\ l !! i = Some d
            /\ model_name d = name /\ status d = "active".
Proof.
  unfold get_active_deployment. destruct (s !! env) as [l|]; [|done]. cbn.
  destruct (list_find _ (reverse l)) as [[j d']|] eqn:Hf; [|done]. cbn.
  intros [= <- <-]. apply list_find_Some in Hf as (Hj & [Hm Hs] & _).
  apply reverse_lookup_Some in Hj as [Hj Hlt].
  exists l. replace (length l - 1 - j) with (length l - S j) by lia. done.
Qed.

Lemma get_active_deployment_None s (env name : string) l :
  get_active_deployment s env name = None -> s !! env = Some l ->
  forall i, (view <$> l) !! i <> Some (name, "active").
Proof.
  unfold get_active_deployment. intros Hg Hl. rewrite Hl in Hg. cbn in Hg.
  destruct (list_find _ (reverse l)) as [[j d']|] eqn:Hf; [done|].
  apply list_find_None in Hf. rewrite Forall_reverse in Hf.
  intros i Hi. apply list_lookup_fmap_Some in Hi as (d & Hv & Hd).
  rewrite Forall_lookup in Hf. apply (Hf _ _ Hd).
  unfold view in Hv. by injection Hv as <- <-.
Qed.

Lemma view_set_status (st : string) l (i : nat) :
  view <$> alter (set_status st) i l
  = alter (fun x => (x.1, st)) i (view <$> l).
Proof. apply list_fmap_alter, Forall_forall. by intros []. Qed.

Lemma view_update_metrics (new : gmap string metric) l (i : nat) :
  view <$> alter (update_metrics_of new) i l = view <$> l.
Proof.
  rewrite (list_fmap_alter view _ id).
  - apply list_eq. intros j. rewrite list_lookup_alter.
    case_decide; [subst; by destruct (_ !! _)|done].
  - apply Forall_forall. by intros [].
Qed.

Lemma discipline_nil : single_active [] /\ active_recent [].
Proof. split; intros i; intros; by destruct i. Qed.

(** What [deploy_model] does to the list of its environment and to the
    other environments. *)
Lemma deploy_model_lists s (name ver env ep now : string) :
  let l0 := default [] (s !! env) in
  let s' := (deploy_model s name ver env ep now).1 in
  (forall env', env' <> env -> s' !! env' = s !! env')
  /\ exists l2,
       s' !! env = Some (l2 ++ [new_deployment name ver env ep now])
       /\ length (view <$> l2) = length (view <$> l0)
       /\ (forall idx m st, (view <$> l2) !! idx = Some (m, st) -> m <> name ->
             (view <$> l0) !! idx = Some (m, st))
       /\ (single_active (view <$> l0) ->
           forall idx, (view <$> l2) !! idx <> Some (name, "active")).
Proof.
  intros l0 s'. unfold s', deploy_model. cbn [fst].
  set (s1 := match s !! env with None => <[env := []]> s | Some _ => s end).
  assert (H1 : s1 !! env = Some l0).
  { unfold s1, l0. destruct (s !! env) eqn:He; [done|]. by rewrite lookup_insert_eq. }
  assert (H1' : forall env', env' <> env -> s1 !! env' = s !! env').
  { intros env' Hne. unfold s1. destruct (s !! env); [done|].
    by rewrite lookup_insert_ne. }
  destruct (get_active_deployment s1 env name) as [[i d0]|] eqn:Hg.
  - apply get_active_deployment_Some in Hg as (l & Hl & Hi & Hm & Hs).
    rewrite H1 in Hl. injection Hl as <-.
    split.
    { intros env' Hne. rewrite !lookup_alter_ne by done. by apply H1'. }
    exists (alter (set_status "inactive") i l0).
    split; [by rewrite !lookup_alter_eq, H1|].
    rewrite view_set_status.
    split; [by rewrite length_alter|]. split.
    + intros idx m st Hidx Hne. rewrite list_lookup_alter in Hidx.
      case_decide as Hii; [|done]. subst idx.
      rewrite list_lookup_fmap, Hi in Hidx. cbn in Hidx. congruence.
    + intros HA idx Hidx. rewrite list_lookup_alter in Hidx.
      assert (Hvi : (view <$> l0) !! i = Some (name, "active")).
      { rewrite list_lookup_fmap, Hi. unfold view. cbn. by rewrite Hm, Hs. }
      case_decide as Hii.
      * subst idx. rewrite Hvi in Hidx. discriminate.
      * by specialize (HA _ _ _ Hvi Hidx).
  - split.
    { intros env' Hne. rewrite lookup_alter_ne by done. by apply H1'. }
    exists l0. split; [by rewrite lookup_alter_eq, H1|].
    split; [done|]. split; [done|].
    intros _. by eapply get_active_deployment_None.
Qed.

Lemma deploy_model_ok s (name ver env ep now : string) :
  store_ok s -> store_ok (deploy_model s name ver env ep now).1.
Proof.
  intros Hok env' l Hl.
  destruct (deploy_model_lists s name ver env ep now)
    as (Hother & l2 & Henv & Hlen & Hkeep & Hnone).
  destruct (decide (env' = env)) as [->|Hne].
  - rewrite Henv in Hl. injection Hl as <-.
    assert (H0 : single_active (view <$> default [] (s !! env))
                 /\ active_recent (view <$> default [] (s !! env))).
    { destruct (s !! env) as [l0|] eqn:He; [by apply (Hok env)|apply discipline_nil]. }
    destruct H0 as [HA HB]. rewrite fmap_app. cbn [fmap list_fmap].
    change (view (new_deployment name ver env ep now)) with (name, "active").
    destruct (discipline_append _ _ name HA HB Hlen Hkeep (Hnone HA)) as (? & ? & _).
    done.
  - rewrite Hother in Hl by done. by apply (Hok env').
Qed.

Lemma refs_from_elem (k : nat) (name : string) l (i : nat) :
  i ∈ refs_from k name l
  <-> k <= i /\ exists d, l !! (i - k) = Some d /\ model_name d = name.
Proof.
  revert k. induction l as [|d l IH]; intros k; cbn.
  - split; [intros H; by apply elem_of_nil in H | by intros (_ & ? & ? & _)].
  - assert (Htail : i ∈ refs_from (S k) name l
                    <-> k < i /\ exists d', (d :: l) !! (i - k) = Some d'
                                            /\ model_name d' = name).
    { rewrite IH. split.
      - intros (Hle & d' & Hd' & Hm). split; [lia|]. exists d'. split; [|done].
        replace (i - k) with (S (i - S k)) by lia. done.
      - intros (Hlt & d' & Hd' & Hm). split; [lia|]. exists d'. split; [|done].
        replace (i - k) with (S (i - S k)) in Hd' by lia. done. }
    case_decide as Hd.
    + rewrite elem_of_cons, Htail. split.
      * intros [->|(Hlt & Hex)]; [|split; [lia|done]].
        split; [lia|]. exists d. by rewrite Nat.sub_diag.
      * intros (Hle & Hex). destruct (decide (i = k)) as [->|?]; [by left|].
        right. split; [lia|done].
    + rewrite Htail. split.
      * intros (Hlt & Hex). split; [lia|done].
      * intros (Hle & d' & Hd' & Hm). split; [|by exists d'].
        destruct (decide (i = k)) as [->|?]; [|lia].
        rewrite Nat.sub_diag in Hd'. cbn in Hd'. congruence.
Qed.

Lemma refs_from_sorted (k : nat) (name : string) l :
  StronglySorted lt (refs_from k name l).
Proof.
  revert k. induction l as [|d l IH]; intros k; cbn; [constructor|].
  case_decide; [|apply IH]. constructor; [apply IH|].
  apply Forall_forall. intros i Hi. apply refs_from_elem in Hi. lia.
Qed.

Lemma sorted_lookup_lt (idxs : list nat) (a b x y : nat) :
  StronglySorted lt idxs ->
  idxs !! a = Some x -> idxs !! b = Some y -> a < b -> x < y.
Proof.
  intros Hs. revert a b. induction Hs as [|z idxs Hs IH Hall]; intros a b Ha Hb Hab.
  - by destruct a.
  - destruct b as [|b]; [lia|]. cbn in Hb. destruct a as [|a].
    + cbn in Ha. injection Ha as <-. rewrite Forall_lookup in Hall. by eapply Hall.
    + cbn in Ha. eapply IH; eauto. lia.
Qed.

Lemma rollback_deployment_ok s (env name : string) :
  store_ok s -> store_ok (rollback_deployment s env name).1.
Proof.
  intros Hok. unfold rollback_deployment.
  destruct (s !! env) as [l|] eqn:Hl; [|done].
  set (idxs := refs_from 0 name l).
  destruct (length idxs <? 2)%nat eqn:Hlen; [done|].
  apply Nat.ltb_ge in Hlen.
  destruct (idxs !! (length idxs - 1)) as [c|] eqn:Hc; [|done].
  destruct (idxs !! (length idxs - 2)) as [p|] eqn:Hp; [|done].
  cbn [fst]. intros env' l' Hl'.
  destruct (decide (env = env')) as [<-|Hne];
    [|rewrite lookup_insert_ne in Hl' by done; by apply (Hok env')].
  rewrite lookup_insert_eq in Hl'. injection Hl' as <-.
  destruct (Hok _ _ Hl) as [HA HB].
  rewrite !view_set_status.
  assert (Hmodel : forall i, i ∈ idxs <-> exists st, (view <$> l) !! i = Some (name, st)).
  { intros i. unfold idxs. rewrite refs_from_elem, Nat.sub_0_r. split.
    - intros (_ & d & Hd & Hm). exists (status d).
      rewrite list_lookup_fmap, Hd. unfold view. cbn. by rewrite Hm.
    - intros (st & Hi). apply list_lookup_fmap_Some in Hi as (d & Hv & Hd).
      split; [lia|]. exists d. split; [done|]. unfold view in Hv. congruence. }
  apply (discipline_rollback _ p c name); try done.
  - eapply (sorted_lookup_lt idxs (length idxs - 2) (length idxs - 1));
      [apply refs_from_sorted|done|done|lia].
  - apply Hmodel. by eapply list_elem_of_lookup_2.
  - apply Hmodel. by eapply list_elem_of_lookup_2.
  - intros idx st Hidx.
    assert (Hin : idx ∈ idxs) by (apply Hmodel; eauto).
    apply list_elem_of_lookup_1 in Hin as [q Hq].
    pose proof (lookup_lt_Some _ _ _ Hq) as Hqlt.
    destruct (decide (q = length idxs - 1)) as [->|?]; [left; congruence|].
    destruct (decide (q = length idxs - 2)) as [->|?]; [right; left; congruence|].
    right. right.
    eapply (sorted_lookup_lt idxs q (length idxs - 2));
      [apply refs_from_sorted|done|done|lia].
Qed.

Lemma update_metrics_ok s (env name : string) (new : gmap string metric) :
  store_ok s -> store_ok (update_metrics s env name new).
Proof.
  intros Hok. unfold update_metrics.
  destruct (get_active_deployment s env name) as [[i d]|]; [|done].
  intros env' l' Hl'. destruct (decide (env = env')) as [<-|Hne].
  - rewrite lookup_alter_eq in Hl'. destruct (s !! env) as [l|] eqn:Hl; [|done].
    cbn in Hl'. injection Hl' as <-. rewrite view_update_metrics. by apply (Hok env).
  - rewrite lookup_alter_ne in Hl' by done. by apply (Hok env').
Qed.

Lemma run_call_ok s (c : call) : store_ok s -> store_ok (run_call s c).
Proof.
  intros Hok. destruct c; cbn.
  - by apply deploy_model_ok.
  - by apply rollback_deployment_ok.
  - by apply update_metrics_ok.
Qed.

Lemma run_ok (calls : list call) : store_ok (run calls).
Proof.
  unfold run. induction calls as [|c calls IH] using rev_ind.
  - intros env l Hl. cbn in Hl. by rewrite lookup_empty in Hl.
  - rewrite foldl_app. cbn. by apply run_call_ok.
Qed.

Lemma filed_alter s (env : string) (g : list ModelDeployment -> list ModelDeployment) :
  (forall l, Forall (fun d => environment d = env) l ->
             Forall (fun d => environment d = env) (g l)) ->
  filed s -> filed (alter g env s).
Proof.
  intros Hg Hs env' l' Hl'. destruct (decide (env = env')) as [<-|Hne].
  - rewrite lookup_alter_eq in Hl'. destruct (s !! env) as [l|] eqn:Hl; [|done].
    cbn in Hl'. injection Hl' as <-. by apply Hg, (Hs env).
  - rewrite lookup_alter_ne in Hl' by done. by apply (Hs env').
Qed.

Lemma filed_insert s (env : string) l :
  Forall (fun d => environment d = env) l -> filed s -> filed (<[env := l]> s).
Proof.
  intros Hl Hs env' l' Hl'. destruct (decide (env = env')) as [<-|Hne].
  - rewrite lookup_insert_eq in Hl'. by injection Hl' as <-.
  - rewrite lookup_insert_ne in Hl' by done. by apply (Hs env').
Qed.

Lemma run_call_filed s (c : call) : filed s -> filed (run_call s c).
Proof.
  intros Hs. destruct c as [name ver env ep now|env name|env name new]; cbn.
  - unfold deploy_model. cbn [fst].
    assert (H1 : filed (match s !! env with
                        | None => <[env := []]> s | Some _ => s end)).
    { destruct (s !! env); [done|]. by apply filed_insert. }
    apply filed_alter; [intros l Hl; apply Forall_app; split; [done|by repeat constructor]|].
    destruct (get_active_deployment _ env name) as [[i d]|]; [|done].
    apply filed_alter; [|done]. intros l Hl. by apply Forall_alter.
  - unfold rollback_deployment. destruct (s !! env) as [l|] eqn:Hl; [|done].
    set (idxs := refs_from 0 name l).
    destruct (length idxs <? 2)%nat; [done|].
    destruct (idxs !! (length idxs - 1)) as [c|]; [|done].
    destruct (idxs !! (length idxs - 2)) as [p|]; [|done].
    cbn [fst]. apply filed_insert; [|done].
    apply Forall_alter; [apply Forall_alter; [by apply (Hs env)|done]|done].
  - unfold update_metrics. destruct (get_active_deployment s env name) as [[i d]|]; [|done].
    apply filed_alter; [|done]. intros l Hl. by apply Forall_alter.
Qed.

Lemma run_filed (calls : list call) : filed (run calls).
Proof.
  unfold run. induction calls as [|c calls IH] using rev_ind.
  - intros env l Hl. cbn in Hl. by rewrite lookup_empty in Hl.
  - rewrite foldl_app. cbn. by apply run_call_filed.
Qed.

(** C3: in every store reached from the empty one by [deploy_model],
    [rollback_deployment] and [update_metrics] calls, two active records of
    one environment (the one they are filed under and carry in their
    [environment] field) with the same model name are the same record; and right
    after a further [deploy_model] call the record it appended is active and
    is the only active record of its model in its environment. *)
Theorem C3_at_most_one_active_deployment (calls : list call) :
  (forall env l i j di dj,
      run calls !! env = Some l ->
      l !! i = Some di -> l !! j = Some dj ->
      environment di = env /\ environment dj = env
      /\ (model_name di = model_name dj ->
          status di = "active" -> status dj = "active" -> i = j))
  /\ (forall name ver env ep now,
        let after := deploy_model (run calls) name ver env ep now in
        exists l,
          after.1 !! env = Some (l ++ [after.2])
          /\ model_name after.2 = name /\ status after.2 = "active"
          /\ forall i di, (l ++ [after.2]) !! i = Some di ->
               model_name di = name -> status di = "active" -> i = length l).
Proof.
  split.
  - intros env l i j di dj Hl Hi Hj.
    pose proof (run_filed calls _ _ Hl) as Hf. rewrite Forall_lookup in Hf.
    split; [by eapply Hf|]. split; [by eapply Hf|]. intros Hm Hsi Hsj.
    destruct (run_ok calls _ _ Hl) as [HA _].
    apply (HA i j (model_name di)); rewrite list_lookup_fmap.
    + rewrite Hi. unfold view. cbn. by rewrite Hsi.
    + rewrite Hj. unfold view. cbn. by rewrite Hm, Hsj.
  - intros name ver env ep now after.
    destruct (deploy_model_lists (run calls) name ver env ep now)
      as (_ & l2 & Henv & Hlen & Hkeep & Hnone).
    assert (H0 : single_active (view <$> default [] (run calls !! env))
                 /\ active_recent (view <$> default [] (run calls !! env))).
    { destruct (run calls !! env) as [l0|] eqn:He;
        [by apply (run_ok calls env)|apply discipline_nil]. }
    destruct H0 as [HA HB].
    destruct (discipline_append _ _ name HA HB Hlen Hkeep (Hnone HA)) as (_ & _ & Hlast).
    exists l2. split; [exact Henv|]. split; [done|]. split; [done|].
    intros i di Hi Hm Hs. rewrite <- (length_fmap view). apply Hlast.
    assert (Hv : (view <$> l2 ++ [after.2]) !! i = Some (name, "active")).
    { rewrite list_lookup_fmap, Hi. unfold view. cbn. by rewrite Hm, Hs. }
    rewrite fmap_app in Hv. exact Hv.
Qed.
End Deployments.

(** ** Loops that may raise *)

Lemma fold_result_inv {A B} (P : A -> Prop) (f : A -> B -> result A)
    (l : list B) (a a' : A) :
  (forall a x a', P a -> f a x = Ok a' -> P a') ->
  P a -> fold_result f a l = Ok a' -> P a'.
Proof.
  intros Hf. revert a. induction l as [|x l IH]; intros a Ha; cbn.
  - by intros [= <-].
  - destruct (f a x) as [a1|] eqn:Hfa; cbn; [|done]. eauto.
Qed.

Lemma fold_result_total {A B} (P : A -> Prop) (f : A -> B -> result A)
    (l : list B) (a : A) :
  (forall a x, x ∈ l -> P a -> exists a', f a x = Ok a' /\ P a') ->
  P a -> exists a', fold_result f a l = Ok a' /\ P a'.
Proof.
  revert a. induction l as [|x l IH]; intros a Hf Ha; cbn.
  - by exists a.
  - destruct (Hf a x) as (a1 & -> & Ha1); [left|done|]. cbn.
    apply IH; [|done]. intros a2 y Hy. apply Hf. by right.
Qed.

Lemma repeat_result_inv {A} (P : A -> Prop) (f : A -> result A)
    (n : nat) (a a' : A) :
  (forall a a', P a -> f a = Ok a' -> P a') ->
  P a -> repeat_result n f a = Ok a' -> P a'.
Proof.
  intros Hf. revert a. induction n as [|n IH]; intros a Ha; cbn.
  - by intros [= <-].
  - destruct (f a) as [a1|] eqn:Hfa; cbn; [|done]. eauto.
Qed.

Lemma repeat_result_total {A} (P : A -> Prop) (f : A -> result A)
    (n : nat) (a : A) :
  (forall a, P a -> exists a', f a = Ok a' /\ P a') ->
  P a -> exists a', repeat_result n f a = Ok a' /\ P a'.
Proof.
  intros Hf. revert a. induction n as [|n IH]; intros a Ha; cbn.
  - by exists a.
  - destruct (Hf a Ha) as (a1 & -> & Ha1). cbn. by apply IH.
Qed.

(** ** Recommendation engine *)

Section Recommendation.
Import RecommendationEngine.
Variable mean : list float -> float.
Variable dot : list float -> list float -> float.
Variable set_iter : gset string -> list string.
Hypothesis set_iter_elements : forall s, set_iter s ≡ₚ elements s.

Lemma index_map_fold (ps : list (nat * string)) (m0 : gmap string nat)
    (x : string) (idx : nat) :
  foldl (fun m p => <[p.2 := p.1]> m) m0 ps !! x = Some idx ->
  (idx, x) ∈ ps \/ m0 !! x = Some idx.
Proof.
  revert m0. induction ps as [|[i y] ps IH]; intros m0; cbn; [by right|].
  intros H. apply IH in H as [H|H]; [left; by right|].
  destruct (decide (y = x)) as [->|Hne].
  - rewrite lookup_insert_eq in H. injection H as ->. left. by left.
  - rewrite lookup_insert_ne in H by done. by right.
Qed.

Lemma index_map_fold_dom (ps : list (nat * string)) (m0 : gmap string nat)
    (x : string) :
  is_Some (foldl (fun m p => <[p.2 := p.1]> m) m0 ps !! x)
  <-> x ∈ ps.*2 \/ is_Some (m0 !! x).
Proof.
  revert m0. induction ps as [|[i y] ps IH]; intros m0; cbn.
  - split; [by right|]. intros [H|H]; [by apply elem_of_nil in H|done].
  - rewrite IH, elem_of_cons. destruct (decide (y = x)) as [->|Hne].
    + rewrite lookup_insert_eq. split; [intros _; by left; left|].
      intros _. right. by eexists.
    + rewrite lookup_insert_ne by done.
      split; [intros [?|?]; auto | intros [[?|?]|?]; auto; congruence].
Qed.

Lemma index_map_lt (xs : list string) (x : string) (idx : nat) :
  index_map xs !! x = Some idx -> idx < length xs.
Proof.
  unfold index_map. intros H. apply index_map_fold in H as [H|H].
  - apply elem_of_lookup_imap in H as (i & y & [= -> ->] & Hy).
    by eapply lookup_lt_Some.
  - by rewrite lookup_empty in H.
Qed.

Lemma index_map_dom (xs : list string) (x : string) :
  is_Some (index_map xs !! x) <-> x ∈ xs.
Proof.
  unfold index_map. rewrite index_map_fold_dom, lookup_empty.
  split.
  - intros [H|[? H]]; [|done].
    apply list_elem_of_fmap in H as ([i y] & -> & H).
    apply elem_of_lookup_imap in H as (i' & y' & [= -> ->] & Hy).
    by eapply list_elem_of_lookup_2.
  - intros H. left. apply list_elem_of_lookup_1 in H as [i Hi].
    apply list_elem_of_fmap. exists (i, x). split; [done|].
    apply elem_of_lookup_imap. by exists i, x.
Qed.

(** What [fit] fixes before its epochs and every step keeps: the two index
    maps, the global mean and the sizes of the four arrays. *)
Lemma sgd_step_keeps (U I : gmap string nat) (g : float) (nu ni : nat)
    (lr reg : float) (e e' : engine) (x : string * string * float) :
  fitted U I g nu ni e -> sgd_step dot lr reg e x = Ok e' ->
  fitted U I g nu ni e'.
Proof.
  intros (HU & HI & Hg & H1 & H2 & H3 & H4). unfold sgd_step.
  destruct x as [[user item] rating].
  destruct (user_to_idx e !! user) as [ui|]; cbn; [|done].
  destruct (item_to_idx e !! item) as [ii|]; cbn; [|done].
  destruct (predict_rating dot e user item) as [pr|]; cbn; [|done].
  destruct (user_factors e !! ui) as [uf|]; cbn; [|done].
  destruct (item_factors e !! ii) as [itf|]; cbn; [|done].
  destruct (user_biases e !! ui) as [ub|]; cbn; [|done].
  destruct (item_biases e !! ii) as [ib|]; cbn; [|done].
  intros [= <-]. unfold fitted. cbn. by rewrite !length_insert.
Qed.

Lemma predict_rating_fitted (U I : gmap string nat) (g : float) (nu ni : nat)
    (e : engine) (user item : string) :
  fitted U I g nu ni e ->
  (forall u idx, U !! u = Some idx -> idx < nu) ->
  (forall i idx, I !! i = Some idx -> idx < ni) ->
  match U !! user, I !! item with
  | Some ui, Some ii =>
      exists ub ib uf itf,
        user_biases e !! ui = Some ub /\ item_biases e !! ii = Some ib
        /\ user_factors e !! ui = Some uf /\ item_factors e !! ii = Some itf
        /\ predict_rating dot e user item = Ok (g + ub + ib + dot uf itf)%float
  | _, _ => predict_rating dot e user item = Ok g
  end.
Proof.
  intros (HU & HI & Hg & H1 & H2 & H3 & H4) HUlt HIlt.
  unfold predict_rating. rewrite HU, HI, Hg.
  destruct (U !! user) as [ui|] eqn:Hu; [|done].
  destruct (I !! item) as [ii|] eqn:Hi; [|done].
  apply HUlt in Hu. apply HIlt in Hi.
  destruct (lookup_lt_is_Some_2 (user_biases e) ui) as [ub Hub]; [lia|].
  destruct (lookup_lt_is_Some_2 (item_biases e) ii) as [ib Hib]; [lia|].
  destruct (lookup_lt_is_Some_2 (user_factors e) ui) as [uf Huf]; [lia|].
  destruct (lookup_lt_is_Some_2 (item_factors e) ii) as [itf Hitf]; [lia|].
  exists ub, ib, uf, itf. rewrite Hub, Hib, Huf, Hitf. done.
Qed.

Lemma sgd_step_total (U I : gmap string nat) (g : float) (nu ni : nat)
    (lr reg : float) (e : engine) (x : string * string * float) :
  fitted U I g nu ni e ->
  (forall u idx, U !! u = Some idx -> idx < nu) ->
  (forall i idx, I !! i = Some idx -> idx < ni) ->
  is_Some (U !! x.1.1) -> is_Some (I !! x.1.2) ->
  exists e', sgd_step dot lr reg e x = Ok e' /\ fitted U I g nu ni e'.
Proof.
  intros He HUlt HIlt [ui Hu] [ii Hi]. destruct x as [[user item] rating].
  cbn in Hu, Hi.
  pose proof (predict_rating_fitted U I g nu ni e user item He HUlt HIlt) as Hp.
  rewrite Hu, Hi in Hp. destruct Hp as (ub & ib & uf & itf & Hub & Hib & Huf & Hitf & Hp).
  destruct (sgd_step dot lr reg e (user, item, rating)) as [e'|ex] eqn:Hs.
  - exists e'. split; [done|]. by eapply sgd_step_keeps.
  - exfalso. unfold sgd_step in Hs. destruct He as (HU & HI & _).
    rewrite HU, HI, Hu, Hi in Hs. cbn in Hs. rewrite Hp in Hs. cbn in Hs.
    rewrite Huf, Hitf in Hs. cbn in Hs. rewrite Hub, Hib in Hs. cbn in Hs. done.
Qed.

Lemma set_iter_lt (xs : gset string) (x : string) (idx : nat) :
  index_map (set_iter xs) !! x = Some idx -> idx < size xs.
Proof.
  intros H. apply index_map_lt in H.
  by rewrite (Permutation_length (set_iter_elements xs)) in H.
Qed.

Lemma set_iter_dom (l : list string) (x : string) :
  is_Some (index_map (set_iter (list_to_set l)) !! x) <-> x ∈ l.
Proof.
  rewrite index_map_dom, (set_iter_elements (list_to_set l)), elem_of_elements.
  apply elem_of_list_to_set.
Qed.

Lemma epoch_keeps (U I : gmap string nat) (g : float) (nu ni : nat)
    (lr reg : float) (inter : list (string * string * float)) (e e' : engine) :
  fitted U I g nu ni e -> epoch dot lr reg inter e = Ok e' ->
  fitted U I g nu ni e'.
Proof.
  intros He. unfold epoch.
  destruct (fold_result _ e inter) as [e1|] eqn:Hf; cbn; [|done].
  case_decide; [done|]. intros [= <-].
  eapply (fold_result_inv (fitted U I g nu ni)); [|exact He|exact Hf].
  intros a x a' Ha Hs. by eapply sgd_step_keeps.
Qed.

(** C4: [fit] returns whenever there is at least one interaction; after it
    has returned, the global mean is the mean of the fitted ratings,
    [predict_rating] returns exactly that global mean when the user or the
    item did not appear in the interactions, and when both appeared it
    returns global mean + user bias + item bias + dot(user factors, item
    factors), read at the indices of the user and of the item. *)
Theorem C4_predict_rating_after_fit (e : engine)
    (interactions : list (string * string * float)) (epochs : nat)
    (learning_rate regularization : float)
    (draw_users draw_items : nat -> nat -> float) :
  let users := (fun x => x.1.1) <$> interactions in
  let items := (fun x => x.1.2) <$> interactions in
  let fit_result := fit mean dot set_iter e interactions epochs learning_rate
                        regularization draw_users draw_items in
  (interactions <> [] -> exists e', fit_result = Ok e')
  /\ forall e', fit_result = Ok e' ->
       global_mean e' = mean ((fun x => x.2) <$> interactions)
       /\ forall user item,
            (user ∉ users \/ item ∉ items ->
               predict_rating dot e' user item = Ok (global_mean e'))
            /\ (user ∈ users -> item ∈ items ->
                exists ui ii ub ib uf itf,
                  user_to_idx e' !! user = Some ui
                  /\ item_to_idx e' !! item = Some ii
                  /\ user_biases e' !! ui = Some ub
                  /\ item_biases e' !! ii = Some ib
                  /\ user_factors e' !! ui = Some uf
                  /\ item_factors e' !! ii = Some itf
                  /\ predict_rating dot e' user item
                     = Ok (global_mean e' + ub + ib + dot uf itf)%float).
Proof.
  intros users items fit_result. unfold fit_result, fit. fold users items.
  set (U := index_map (set_iter (list_to_set users))).
  set (I := index_map (set_iter (list_to_set items))).
  set (g := mean ((fun x => x.2) <$> interactions)).
  set (nu := size (list_to_set users : gset string)).
  set (ni := size (list_to_set items : gset string)).
  set (e0 := Build_engine _ _ _ _ _ _ _ _).
  assert (H0 : fitted U I g nu ni e0).
  { unfold fitted, e0, matrix_of. cbn.
    by rewrite !length_replicate, !length_fmap, !length_seq. }
  assert (HUlt : forall u idx, U !! u = Some idx -> idx < nu)
    by (intros u idx; apply set_iter_lt).
  assert (HIlt : forall i idx, I !! i = Some idx -> idx < ni)
    by (intros i idx; apply set_iter_lt).
  split.
  - intros Hne.
    destruct (repeat_result_total (fitted U I g nu ni)
                (epoch dot learning_rate regularization interactions)
                epochs e0) as (e' & He' & _); [|done|by exists e'].
    intros a Ha. unfold epoch.
    destruct (fold_result_total (fitted U I g nu ni)
                (sgd_step dot learning_rate regularization) interactions a)
      as (a' & -> & Ha'); [|done|].
    + intros a1 x Hx Ha1. apply sgd_step_total; try done.
      * apply set_iter_dom. apply list_elem_of_fmap. by exists x.
      * apply set_iter_dom. apply list_elem_of_fmap. by exists x.
    + cbn. rewrite decide_False by done. by exists a'.
  - intros e' Hfit.
    assert (He' : fitted U I g nu ni e').
    { eapply (repeat_result_inv (fitted U I g nu ni)); [|exact H0|exact Hfit].
      intros a a' Ha Hep. by eapply epoch_keeps. }
    pose proof He' as (_ & _ & Hg & _). split; [done|].
    intros user item.
    pose proof (predict_rating_fitted U I g nu ni e' user item He' HUlt HIlt) as Hp.
    pose proof He' as (HU & HI & _).
    split.
    + intros Hnot. rewrite Hg.
      destruct (U !! user) as [ui|] eqn:Hu; [|done].
      destruct (I !! item) as [ii|] eqn:Hi; [|done].
      destruct Hnot as [Hnot|Hnot]; exfalso; apply Hnot.
      * apply set_iter_dom. fold U. by rewrite Hu.
      * apply set_iter_dom. fold I. by rewrite Hi.
    + intros Hu Hi. apply set_iter_dom in Hu as [ui Hu], Hi as [ii Hi].
      fold U in Hu. fold I in Hi. rewrite Hu, Hi in Hp.
      destruct Hp as (ub & ib & uf & itf & ? & ? & ? & ? & ?).
      exists ui, ii, ub, ib, uf, itf. rewrite HU, HI, Hg. done.
Qed.
End Recommendation.

(** C4 with the elements of a set iterated in [elements] order, on two
    interactions: a user that was not fitted gets the global mean. *)
Lemma C4_predict_rating_witness :
  let mean := fun l : list float => default 0%float (head l) in
  let dot := fun a b : list float => default 0%float (head (zip_with PrimFloat.mul a b)) in
  exists e',
    RecommendationEngine.fit mean dot elements (RecommendationEngine.init 2)
      [("ann", "lamp", 4%float); ("bob", "plug", 2%float)] 1
      0.01%float 0.02%float (fun _ _ => 0.1%float) (fun _ _ => 0.1%float) = Ok e'
    /\ RecommendationEngine.predict_rating dot e' "eve" "lamp"
       = Ok (RecommendationEngine.global_mean e').
Proof.
  intros mean dot.
  destruct (C4_predict_rating_after_fit mean dot elements
              (fun s => reflexivity (elements s))
              (RecommendationEngine.init 2)
              [("ann", "lamp", 4%float); ("bob", "plug", 2%float)] 1
              0.01%float 0.02%float (fun _ _ => 0.1%float) (fun _ _ => 0.1%float))
    as [Htotal Hafter].
  destruct Htotal as [e' He']; [discriminate|].
  exists e'. split; [exact He'|].
  destruct (Hafter e' He') as [_ Hp]. apply (Hp "eve" "lamp"). left.
  cbn. intros Hin. repeat (apply elem_of_cons in Hin as [Hin|Hin]; [discriminate|]).
  by apply elem_of_nil in Hin.
Defined.

(** ** Time series forecaster: exceptions and shapes *)

Section ForecasterShapes.
Import TimeSeriesForecaster.
Variable sqrt : Qc -> Qc.

Lemma zip_fmap_same {A B C} (f : A -> B) (g : A -> C) (l : list A) :
  zip (f <$> l) (g <$> l) = (fun i => (f i, g i)) <$> l.
Proof. induction l as [|a l IH]; cbn; [done|]. by f_equal. Qed.

Lemma create_sequences_count (st : forecaster) (data : list Qc) :
  length (create_sequences st data).1 = 0
  <-> length data < window_size st + forecast_horizon st.
Proof. unfold create_sequences. cbn. rewrite length_fmap, length_seq. lia. Qed.

Lemma create_sequences_shapes (st : forecaster) (data x y : list Qc) :
  (x, y) ∈ zip (create_sequences st data).1 (create_sequences st data).2 ->
  length x = window_size st /\ length y = forecast_horizon st.
Proof.
  unfold create_sequences. cbn. rewrite zip_fmap_same.
  intros H. apply list_elem_of_fmap in H as (i & [= -> ->] & Hi).
  apply elem_of_seq in Hi. rewrite !length_take, !length_drop. lia.
Qed.

Lemma np_dot_shaped (v : list Qc) (W : ndarray2) :
  length v = shape0 W ->
  exists d, np_dot v W = Ok d /\ length d = shape1 W.
Proof.
  intros Hv. unfold np_dot. rewrite decide_True by done.
  eexists. split; [done|]. by rewrite length_fmap, length_seq.
Qed.

Lemma sgd_step_shaped (ws fh : nat) (lr : Qc) (p : ndarray2 * list Qc)
    (xy : list Qc * list Qc) :
  shaped ws fh p -> length xy.1 = ws -> length xy.2 = fh ->
  exists p', TimeSeriesForecaster.sgd_step lr p xy = Ok p' /\ shaped ws fh p'.
Proof.
  destruct p as [W b], xy as [x y]. intros (H0 & H1 & Hb) Hx Hy. cbn in *.
  destruct (np_dot_shaped x W) as (d & Hd & Hlen); [congruence|].
  rewrite Hd. cbn. eexists. split; [done|]. unfold shaped. cbn.
  rewrite !length_zip_with. lia.
Qed.

(** The loop of [train] never raises once there is a training sequence. *)
Lemma train_loop_shaped (st : forecaster) (data : list Qc) (epochs : nat)
    (lr : Qc) (p : ndarray2 * list Qc) :
  shaped (window_size st) (forecast_horizon st) p ->
  exists p',
    repeat_result epochs
      (fun p => fold_result (TimeSeriesForecaster.sgd_step lr) p
                  (zip (create_sequences st data).1 (create_sequences st data).2))
      p = Ok p'
    /\ shaped (window_size st) (forecast_horizon st) p'.
Proof.
  apply repeat_result_total. intros a Ha.
  apply fold_result_total; [|done]. intros a1 [x y] Hxy Ha1.
  apply create_sequences_shapes in Hxy as [Hx Hy]. by apply sgd_step_shaped.
Qed.

Lemma train_outcome (st : forecaster) (data : list Qc) (epochs : nat)
    (lr : Qc) (randn : nat -> nat -> Qc) :
  let after := train sqrt st data epochs lr randn in
  window_size after.1 = window_size st
  /\ forecast_horizon after.1 = forecast_horizon st
  /\ (length data < window_size st + forecast_horizon st ->
      after.2 = Some ValueError)
  /\ (window_size st + forecast_horizon st <= length data ->
      after.2 = None /\ trained after.1).
Proof.
  unfold train. destruct (normalize sqrt st data) as [st1 nd] eqn:Hn.
  assert (Hws : window_size st1 = window_size st)
    by (unfold normalize in Hn; by injection Hn as <- _).
  assert (Hfh : forecast_horizon st1 = forecast_horizon st)
    by (unfold normalize in Hn; by injection Hn as <- _).
  assert (Hnd : length nd = length data).
  { unfold normalize in Hn. injection Hn as _ <-. by rewrite length_fmap. }
  pose proof (create_sequences_count st1 nd) as Hcount.
  rewrite Hws, Hfh, Hnd in Hcount.
  destruct (create_sequences st1 nd) as [X y] eqn:Hcs. cbn [fst] in Hcount.
  case_decide as Hlen.
  - cbn. split; [done|]. split; [done|]. split; [done|]. lia.
  - set (W0 := Build_ndarray2 _ _ _). set (b0 := replicate _ _).
    destruct (train_loop_shaped st1 nd epochs lr (W0, b0)) as ([W b] & Hloop & Hshape).
    { unfold shaped, W0, b0. cbn. by rewrite length_replicate. }
    rewrite Hcs in Hloop. cbn [fst snd] in Hloop. rewrite Hloop. cbn.
    split; [done|]. split; [done|]. split; [lia|]. intros _. split; [done|].
    exists W, b. by cbn.
Qed.

Lemma forecast_too_short (st : forecaster) (recent_data : list Qc) :
  length recent_data < window_size st ->
  forecast st recent_data = (st, Raise ValueError).
Proof. intros H. unfold forecast. by rewrite decide_True. Qed.

Lemma forecast_keeps_forecaster (st : forecaster) (recent_data : list Qc) :
  (forecast st recent_data).1 = st.
Proof. unfold forecast. by case_decide. Qed.

Lemma forecast_trained (st : forecaster) (recent_data : list Qc) :
  trained st -> 1 <= window_size st -> window_size st <= length recent_data ->
  exists out, forecast st recent_data = (st, Ok out)
              /\ length out = forecast_horizon st.
Proof.
  intros (W & b & HW & Hb & H0 & H1 & Hlen) Hws Hrecent. cbn in *.
  unfold forecast. rewrite decide_False by lia. rewrite decide_False by lia.
  rewrite HW, Hb.
  destruct (np_dot_shaped
              ((fun x => (x - scaler_mean st) / scaler_std st)%Qc
                 <$> drop (length recent_data - window_size st) recent_data) W)
    as (d & -> & Hd).
  { rewrite length_fmap, length_drop. lia. }
  cbn. eexists. split; [done|]. unfold denormalize.
  rewrite length_fmap, length_zip_with. lia.
Qed.
End ForecasterShapes.

(** C7, as stated, fails: a forecaster that was never trained, given
    [window_size] = 24 points, raises (a [TypeError], from [np.dot] on the
    [None] weights) although its input is not shorter than [window_size]. *)
Lemma C7_untrained_forecast_raises :
  (TimeSeriesForecaster.forecast (TimeSeriesForecaster.init 24 12)
     (replicate 24 0%Qc)).2 = Raise TypeError
  /\ length (replicate 24 0%Qc)
     = TimeSeriesForecaster.window_size (TimeSeriesForecaster.init 24 12).
Proof. split; reflexivity. Qed.

(** C7, amended: [train] raises (a [ValueError]) if and only if the series
    has fewer than [window_size + forecast_horizon] points, and otherwise
    returns; [forecast] raises whenever its input has fewer than
    [window_size] points and never changes the forecaster (so weights and
    bias are unchanged in the error cases); and on a forecaster that [train]
    has trained, with [window_size] at least 1, [forecast] raises if and only
    if its input has fewer than [window_size] points, returning
    [forecast_horizon] values otherwise. *)
Theorem C7_forecaster_errors (sqrt : Qc -> Qc)
    (st : TimeSeriesForecaster.forecaster) (data : list Qc) (epochs : nat)
    (learning_rate : Qc) (randn : nat -> nat -> Qc) :
  let ws := TimeSeriesForecaster.window_size st in
  let fh := TimeSeriesForecaster.forecast_horizon st in
  let after := TimeSeriesForecaster.train sqrt st data epochs learning_rate randn in
  (after.2 = Some ValueError <-> length data < ws + fh)
  /\ (after.2 = None <-> ws + fh <= length data)
  /\ (forall recent_data, length recent_data < ws ->
        TimeSeriesForecaster.forecast st recent_data = (st, Raise ValueError))
  /\ (forall recent_data,
        (TimeSeriesForecaster.forecast st recent_data).1 = st)
  /\ (after.2 = None -> 1 <= ws ->
      forall recent_data,
        ((exists e, (TimeSeriesForecaster.forecast after.1 recent_data).2 = Raise e)
         <-> length recent_data < ws)
        /\ (ws <= length recent_data ->
            exists out,
              TimeSeriesForecaster.forecast after.1 recent_data = (after.1, Ok out)
              /\ length out = fh)).
Proof.
  intros ws fh after.
  destruct (train_outcome sqrt st data epochs learning_rate randn)
    as (Hws & Hfh & Hshort & Hlong).
  fold after in Hws, Hfh, Hshort, Hlong. fold ws fh in Hws, Hfh, Hshort, Hlong.
  split; [|split; [|split; [|split]]].
  - split; [|done]. intros He.
    destruct (decide (length data < ws + fh)); [done|].
    destruct Hlong as [Hnone _]; [lia|]. congruence.
  - split; [|by intros H; apply Hlong]. intros He.
    destruct (decide (ws + fh <= length data)); [done|].
    rewrite Hshort in He by lia. done.
  - apply forecast_too_short.
  - apply forecast_keeps_forecaster.
  - intros Hnone H1 recent_data.
    assert (Htr : TimeSeriesForecaster.trained after.1).
    { apply Hlong. destruct (decide (ws + fh <= length data)); [done|].
      rewrite Hshort in Hnone by lia. done. }
    assert (Hok : ws <= length recent_data ->
              exists out,
                TimeSeriesForecaster.forecast after.1 recent_data = (after.1, Ok out)
                /\ length out = fh).
    { intros Hlen. rewrite <- Hfh. apply forecast_trained; [done|lia|lia]. }
    split; [|exact Hok]. split.
    + intros [e He]. destruct (decide (length recent_data < ws)); [done|].
      destruct Hok as (out & Hout & _); [lia|]. rewrite Hout in He. done.
    + intros Hlen. exists ValueError.
      rewrite forecast_too_short; [done|lia].
Qed.

(** ** Time series forecaster: a constant series *)

Section ConstantSeries.
Import TimeSeriesForecaster.
Variable sqrt : Qc -> Qc.
Hypothesis sqrt_0 : sqrt 0%Qc = 0%Qc.
















End ConstantSeries.


(** * Further properties of the services *)

(** ** Deployments *)

Section DeploymentCalls.
Import ModelDeploymentService.
Implicit Types (s : store) (l : list ModelDeployment).

(** X1: right after [deploy_model], [get_active_deployment] for the same
    environment and model returns the record just deployed, which sits at
    the end of the environment's list. *)
Theorem X1_deploy_then_get_active s (name ver env ep now : string) :
  let after := deploy_model s name ver env ep now in
  get_active_deployment after.1 env name
  = Some (length (default [] (s !! env)), after.2).
Proof.
  intros after.
  destruct (deploy_model_lists s name ver env ep now)
    as (_ & l2 & Henv & Hlen & _).
  rewrite !length_fmap in Hlen.
  unfold get_active_deployment. fold after in Henv. rewrite Henv. cbn.
  rewrite reverse_app. cbn. rewrite decide_True by done. cbn.
  rewrite length_app. cbn. rewrite <- Hlen. do 2 f_equal. lia.
Qed.

Lemma refs_from_length (k : nat) (name : string) l :
  length (refs_from k name l)
  = length (filter (fun d => model_name d = name) l).
Proof.
  revert k. induction l as [|d l IH]; intros k; [done|].
  cbn [refs_from]. rewrite filter_cons. case_decide; cbn; by rewrite IH.
Qed.

Lemma refs_from_lt (name : string) l (i : nat) :
  i ∈ refs_from 0 name l -> i < length l.
Proof.
  intros H. apply refs_from_elem in H as (_ & d & Hd & _).
  rewrite Nat.sub_0_r in Hd. by eapply lookup_lt_Some.
Qed.

(** X2: [rollback_deployment] returns [None] exactly when the environment
    holds fewer than two deployments of the model (none at all for an
    unknown environment), and then it leaves the store as it was. *)
Theorem X2_rollback_needs_two_deployments s (env name : string) :
  let of_model := filter (fun d => model_name d = name) (default [] (s !! env)) in
  ((rollback_deployment s env name).2 = None <-> length of_model < 2)
  /\ (length of_model < 2 -> (rollback_deployment s env name).1 = s).
Proof.
  intros of_model. unfold of_model, rollback_deployment.
  destruct (s !! env) as [l|] eqn:Hl; [|cbn; split; [split|]; auto with lia].
  change (default [] (Some l)) with l.
  rewrite <- (refs_from_length 0). set (idxs := refs_from 0 name l).
  destruct (length idxs <? 2)%nat eqn:Hlen.
  - apply Nat.ltb_lt in Hlen. by split.
  - apply Nat.ltb_ge in Hlen.
    destruct (lookup_lt_is_Some_2 idxs (length idxs - 1)) as [c Hc]; [lia|].
    destruct (lookup_lt_is_Some_2 idxs (length idxs - 2)) as [p Hp]; [lia|].
    rewrite Hc, Hp. cbn [fst snd]. split; [|lia]. split; [|lia].
    intros Hnone. apply lookup_ge_None in Hnone. rewrite !length_alter in Hnone.
    assert (p < length l) by (eapply refs_from_lt, list_elem_of_lookup_2, Hp). lia.
Qed.

Lemma refs_from_set_status (k : nat) (name st : string) l (i : nat) :
  refs_from k name (alter (set_status st) i l) = refs_from k name l.
Proof.
  revert k i. induction l as [|d l IH]; intros k [|i]; cbn; try done.
  - by rewrite IH.
Qed.

Lemma rollback_deployment_cases s (env name : string) :
  rollback_deployment s env name = (s, None)
  \/ exists l c p,
       s !! env = Some l
       /\ (length (refs_from 0 name l) <? 2)%nat = false
       /\ refs_from 0 name l !! (length (refs_from 0 name l) - 1) = Some c
       /\ refs_from 0 name l !! (length (refs_from 0 name l) - 2) = Some p
       /\ rollback_deployment s env name
          = (<[env := alter (set_status "active") p
                        (alter (set_status "rolled_back") c l)]> s,
             alter (set_status "active") p
               (alter (set_status "rolled_back") c l) !! p).
Proof.
  unfold rollback_deployment. destruct (s !! env) as [l|] eqn:Hl; [|by left].
  destruct (length (refs_from 0 name l) <? 2)%nat eqn:Hlen; [by left|].
  destruct (refs_from 0 name l !! (length (refs_from 0 name l) - 1))
    as [c|] eqn:Hc; [|by left].
  destruct (refs_from 0 name l !! (length (refs_from 0 name l) - 2))
    as [p|] eqn:Hp; [|by left].
  right. by exists l, c, p.
Qed.

(** X3: a second [rollback_deployment] for the same environment and model
    changes nothing: the call swaps the statuses of the two newest records
    of the model and cannot reach an older one. *)
Theorem X3_rollback_twice s (env name : string) :
  (rollback_deployment (rollback_deployment s env name).1 env name).1
  = (rollback_deployment s env name).1.
Proof.
  destruct (rollback_deployment_cases s env name)
    as [Hsame|(l & c & p & Hl & Hlen & Hc & Hp & Heq)].
  - rewrite Hsame. cbn [fst]. by rewrite Hsame.
  - rewrite Heq. cbn [fst]. unfold rollback_deployment.
    rewrite lookup_insert_eq, !refs_from_set_status, Hlen, Hc, Hp. cbn [fst].
    rewrite insert_insert_eq. f_equal.
    apply Nat.ltb_ge in Hlen.
    assert (Hpc : p < c).
    { eapply (sorted_lookup_lt _ (length (refs_from 0 name l) - 2)
                (length (refs_from 0 name l) - 1));
        [apply refs_from_sorted|done|done|lia]. }
    apply list_eq. intros j. rewrite !list_lookup_alter.
    repeat case_decide; subst; try lia; try done;
      rewrite ?list_lookup_alter_ne by lia; by destruct (l !! _).
Qed.

(** X4: in a store reached from the empty one by service calls, when
    [rollback_deployment] returns a record, that record is active, belongs
    to the model, and is what [get_active_deployment] returns from then
    on. *)
Theorem X4_rollback_then_get_active (calls : list call) (env name : string)
    s' (d : ModelDeployment) :
  rollback_deployment (run calls) env name = (s', Some d) ->
  model_name d = name /\ status d = "active"
  /\ exists i, get_active_deployment s' env name = Some (i, d).
Proof.
  intros Hroll.
  pose proof (rollback_deployment_ok _ env name (run_ok calls)) as Hok.
  destruct (rollback_deployment_cases (run calls) env name)
    as [Hsame|(l & c & p & Hl & Hlen & Hc & Hp & Heq)]; [congruence|].
  rewrite Heq in Hroll, Hok. injection Hroll as <- Hd. cbn [fst] in Hok.
  apply Nat.ltb_ge in Hlen.
  assert (Hpc : p < c).
  { eapply (sorted_lookup_lt _ (length (refs_from 0 name l) - 2)
              (length (refs_from 0 name l) - 1));
      [apply refs_from_sorted|done|done|lia]. }
  assert (Hpin : p ∈ refs_from 0 name l) by (by eapply list_elem_of_lookup_2).
  apply refs_from_elem in Hpin as (_ & d0 & Hd0 & Hm0).
  rewrite Nat.sub_0_r in Hd0.
  rewrite list_lookup_alter_eq, list_lookup_alter_ne, Hd0 in Hd by lia.
  injection Hd as <-. split; [done|]. split; [done|].
  set (l2 := alter (set_status "active") p (alter (set_status "rolled_back") c l)) in *.
  assert (Hl2 : l2 !! p = Some (set_status "active" d0)).
  { unfold l2. by rewrite list_lookup_alter_eq, list_lookup_alter_ne, Hd0 by lia. }
  assert (Hvp : (view <$> l2) !! p = Some (name, "active")).
  { rewrite list_lookup_fmap, Hl2. unfold view. cbn. by rewrite Hm0. }
  destruct (Hok env l2) as [HA _]; [by rewrite lookup_insert_eq|].
  destruct (get_active_deployment _ env name) as [[i d']|] eqn:Hg.
  - exists i. apply get_active_deployment_Some in Hg as (l' & Hl' & Hi & Hm & Hs).
    rewrite lookup_insert_eq in Hl'. injection Hl' as <-.
    assert (i = p) as ->.
    { apply (HA i p name); [|done].
      rewrite list_lookup_fmap, Hi. unfold view. cbn. by rewrite Hm, Hs. }
    congruence.
  - exfalso. eapply (get_active_deployment_None _ env name l2 Hg); [|exact Hvp].
    by rewrite lookup_insert_eq.
Qed.
End DeploymentCalls.

(** X4 after two deployments of one model. *)
Lemma X4_rollback_witness :
  let calls := [ModelDeploymentService.Deploy "m" "1" "prod" "e" "t1";
                ModelDeploymentService.Deploy "m" "2" "prod" "e" "t2"] in
  let after := ModelDeploymentService.rollback_deployment
                 (ModelDeploymentService.run calls) "prod" "m" in
  exists d i,
    after.2 = Some d
    /\ ModelDeploymentService.version d = "1"
    /\ ModelDeploymentService.get_active_deployment after.1 "prod" "m"
       = Some (i, d).
Proof.
  intros calls after.
  destruct after as [s' [d|]] eqn:Hafter; [|discriminate].
  destruct (X4_rollback_then_get_active calls "prod" "m" s' d Hafter)
    as (_ & _ & i & Hi).
  exists d, i. split; [done|]. split; [|exact Hi].
  by injection Hafter as _ <-.
Defined.

(** ** Model versions *)

Section VersioningCalls.
Import ModelVersioningService.
Variable file_sha256 : string -> result string.
Implicit Types (s : store) (l : list ModelVersion).


Lemma list_find_filter_implied {A} (P Q : A -> Prop)
    `{!forall x, Decision (P x)} `{!forall x, Decision (Q x)} (l : list A) :
  (forall x, P x -> Q x) ->
  snd <$> list_find P (filter Q l) = snd <$> list_find P l.
Proof.
  intros HPQ. induction l as [|x l IH]; [done|].
  rewrite filter_cons. cbn. destruct (decide (P x)) as [HP|HnP].
  - rewrite decide_True by auto. cbn. by rewrite decide_True.
  - destruct (decide (Q x)); cbn; rewrite ?decide_False by done;
      destruct (list_find P l) as [[i y]|], (list_find P (filter Q l)) as [[j z]|];
      cbn in *; congruence.
Qed.

(** X6: after [delete_version], [get_version] finds no record of the
    deleted version, the lookups of every other version and the other
    models are as before, and the call reports [False] only for an unknown
    model. *)
Theorem X6_delete_version s (name ver : string) :
  let after := delete_version s name ver in
  get_version after.1 name ver = None
  /\ (forall other, other <> ver ->
        get_version after.1 name other = get_version s name other)
  /\ (forall name', name' <> name -> after.1 !! name' = s !! name')
  /\ (after.2 = false <-> s !! name = None).
Proof.
  unfold delete_version, get_version.
  destruct (s !! name) as [l|] eqn:Hl; cbn [fst snd].
  - rewrite lookup_insert_eq. cbn. repeat split; try done.
    + destruct (list_find _ (filter _ l)) as [[i r]|] eqn:Hf; [|done].
      apply list_find_Some in Hf as (Hi & Hv & _).
      apply list_elem_of_lookup_2, list_elem_of_filter in Hi as [Hne _]. done.
    + intros other Hne. apply list_find_filter_implied. congruence.
    + intros name' Hne. by rewrite lookup_insert_ne.
  - rewrite Hl. cbn. repeat split; done.
Qed.

(** X7: when the newest record is the only one of its version and is
    deleted, the next automatic version is the patch bump of the record
    before it; so if the deleted version had been generated from that
    record, the same version string is issued again. *)
Theorem X7_delete_latest_reissues s (name : string) l (prev latest : ModelVersion) :
  s !! name = Some (l ++ [prev; latest]) ->
  version prev <> version latest ->
  let after := (delete_version s name (version latest)).1 in
  _generate_version after name = bump_patch (version prev)
  /\ (bump_patch (version prev) = Ok (version latest) ->
      _generate_version after name = Ok (version latest)).
Proof.
  intros Hs Hne after.
  assert (H : _generate_version after name = bump_patch (version prev)).
  { unfold after, delete_version, _generate_version. rewrite Hs. cbn [fst].
    rewrite lookup_insert_eq, filter_app, !filter_cons, filter_nil.
    rewrite decide_True, decide_False by auto.
    by rewrite last_snoc. }
  split; [done|]. intros Hb. by rewrite H.
Qed.



End VersioningCalls.

(** X7 on a model with the versions 1.0.0 and 1.0.1. *)
Lemma X7_delete_latest_witness :
  let r0 := ModelVersioningService.Build_ModelVersion "1.0.0" "m.pkl" ∅ "t0" "00" in
  let r1 := ModelVersioningService.Build_ModelVersion "1.0.1" "m.pkl" ∅ "t1" "00" in
  ModelVersioningService._generate_version
    (ModelVersioningService.delete_version (<["m" := [r0; r1]]> ∅) "m" "1.0.1").1 "m"
  = Ok "1.0.1".
Proof.
  intros r0 r1.
  refine (proj2 (X7_delete_latest_reissues (<["m" := [r0; r1]]> ∅) "m" [] r0 r1
                   _ _) _).
  - reflexivity.
  - discriminate.
  - reflexivity.
Defined.

(** ** Device health and maintenance schedule *)

Section Maintenance.
Import PredictiveMaintenanceModel.

Lemma mapM_Ok_Forall2 {A B} (f : A -> result B) (l : list A) (out : list B) :
  mapM f l = Ok out -> Forall2 (fun a b => f a = Ok b) l out.
Proof.
  revert out. induction l as [|x l IH]; intros out Hm; cbn in Hm.
  - injection Hm as <-. constructor.
  - destruct (f x) as [y|] eqn:Hfx; cbn in Hm; [|done].
    destruct (mapM f l) as [k|]; cbn in Hm; [|done].
    injection Hm as <-. constructor; auto.
Qed.

Lemma unique_from_spec (seen l : list string) :
  NoDup (unique_from seen l)
  /\ forall x, x ∈ unique_from seen l <-> x ∈ l /\ x ∉ seen.
Proof.
  revert seen. induction l as [|y l IH]; intros seen; cbn.
  - split; [constructor|]. intros x. split; [intros H|intros [H _]];
      by apply elem_of_nil in H.
  - case_decide as Hy.
    + destruct (IH seen) as [Hnd Hin]. split; [done|]. intros x.
      rewrite Hin, elem_of_cons. split; [tauto|].
      intros [[->|?] ?]; [done|tauto].
    + destruct (IH (y :: seen)) as [Hnd Hin]. split.
      * constructor; [|done]. rewrite Hin, elem_of_cons. tauto.
      * intros x. rewrite elem_of_cons, Hin, !elem_of_cons.
        destruct (decide (x = y)) as [->|?]; tauto.
Qed.

(** X9: when [assess_device_health] returns, it has produced exactly one
    assessment per distinct device id of the data, in the order in which the
    devices first appear, and each counts at most as many anomalies as the
    device has rows. *)
Theorem X9_one_assessment_per_device (mean : list float -> float)
    (data : list string) (anomalies : list Z) (rul_predictions : list float)
    (out : list assessment) :
  assess_device_health mean data anomalies rul_predictions = Ok out ->
  device_id <$> out = unique data
  /\ NoDup (device_id <$> out)
  /\ (forall dev, dev ∈ device_id <$> out <-> dev ∈ data)
  /\ Forall (fun a => recent_anomalies a
                      <= length (indices_from 0 (device_id a) data)) out.
Proof.
  intros Hout. apply mapM_Ok_Forall2 in Hout.
  assert (Hone : Forall2 (fun dev a =>
            device_id a = dev
            /\ recent_anomalies a <= length (indices_from 0 dev data))
            (unique data) out).
  { eapply Forall2_impl; [exact Hout|]. intros dev a Ha. cbn in Ha.
    unfold assess_one in Ha.
    destruct (take_indices anomalies _) as [das|] eqn:Hdas; cbn in Ha; [|done].
    destruct (take_indices rul_predictions _) as [drs|]; cbn in Ha; [|done].
    destruct (classify _ _) as [st pr].
    destruct (_generate_recommendation _ _ _) as [rec|]; cbn in Ha; [|done].
    injection Ha as <-. cbn. split; [done|].
    apply mapM_Ok_Forall2, Forall2_length in Hdas. rewrite Hdas.
    apply length_filter. }
  assert (Hids : device_id <$> out = unique data).
  { clear Hout. induction Hone as [|dev a devs out' [Hd _] _ IH]; [done|].
    cbn. by rewrite Hd, IH. }
  destruct (unique_from_spec [] data) as [Hnd Hin]. fold (unique data) in Hnd, Hin.
  rewrite Hids. split; [done|]. split; [done|]. split.
  - intros dev. rewrite Hin. split; [tauto|]. intros H. split; [done|].
    apply not_elem_of_nil.
  - clear Hids Hout Hnd Hin. induction Hone as [|dev a devs out' [<- Hle] _ IH];
      constructor; auto.
Qed.
End Maintenance.

(** X9 on three rows of two devices. *)
Lemma X9_one_assessment_witness :
  exists out,
    PredictiveMaintenanceModel.assess_device_health
      (fun l => default 0%float (head l))
      ["lamp"; "plug"; "lamp"] [1%Z; (-1)%Z; 1%Z] [100%float; 50%float; 120%float]
    = Ok out
    /\ PredictiveMaintenanceModel.device_id <$> out = ["lamp"; "plug"].
Proof.
  eexists. split; [reflexivity|].
  exact (proj1 (X9_one_assessment_per_device
                  (fun l => default 0%float (head l))
                  ["lamp"; "plug"; "lamp"] [1%Z; (-1)%Z; 1%Z]
                  [100%float; 50%float; 120%float] _ eq_refl)).
Defined.

Section ScheduleOrder.
Import PredictiveMaintenanceModel.
Variable datetime : Type.
Variable plus_days : datetime -> float -> result datetime.
Variable isoformat : datetime -> string.
Implicit Types (keyed : list ((Z * float) * assessment)).

Lemma insert_by_key_perm (x : (Z * float) * assessment) keyed :
  insert_by_key x keyed ≡ₚ x :: keyed.
Proof.
  induction keyed as [|y l IH]; cbn; [done|].
  destruct (key_lt x.1 y.1); [done|]. rewrite IH. apply perm_swap.
Qed.

Lemma key_lt_le (k1 k2 : Z * float) : key_lt k1 k2 = true -> (k1.1 <= k2.1)%Z.
Proof.
  unfold key_lt. destruct (k1.1 =? k2.1)%Z eqn:He; cbn.
  - apply Z.eqb_eq in He. lia.
  - intros H. apply Z.ltb_lt in H. lia.
Qed.

Lemma key_lt_ge (k1 k2 : Z * float) : key_lt k1 k2 = false -> (k2.1 <= k1.1)%Z.
Proof.
  unfold key_lt. destruct (k1.1 =? k2.1)%Z eqn:He; cbn.
  - apply Z.eqb_eq in He. lia.
  - intros H. apply Z.ltb_ge in H. lia.
Qed.

Lemma insert_by_key_sorted (x : (Z * float) * assessment) keyed :
  StronglySorted (fun p q => (p.1.1 <= q.1.1)%Z) keyed ->
  StronglySorted (fun p q => (p.1.1 <= q.1.1)%Z) (insert_by_key x keyed).
Proof.
  induction 1 as [|y l Hs IH Hall]; cbn; [repeat constructor|].
  destruct (key_lt x.1 y.1) eqn:Hk.
  - apply key_lt_le in Hk. constructor; [by constructor|].
    constructor; [done|]. eapply Forall_impl; [exact Hall|]. cbn. intros; lia.
  - apply key_lt_ge in Hk. constructor; [done|].
    rewrite insert_by_key_perm. by constructor.
Qed.

Lemma sort_fold_spec keyed (acc : list ((Z * float) * assessment)) :
  StronglySorted (fun p q => (p.1.1 <= q.1.1)%Z) acc ->
  StronglySorted (fun p q => (p.1.1 <= q.1.1)%Z)
    (foldl (fun acc x => insert_by_key x acc) acc keyed)
  /\ foldl (fun acc x => insert_by_key x acc) acc keyed ≡ₚ keyed ++ acc.
Proof.
  revert acc. induction keyed as [|x l IH]; intros acc Hacc; cbn; [done|].
  destruct (IH (insert_by_key x acc)) as [Hs Hp]; [by apply insert_by_key_sorted|].
  split; [done|]. rewrite Hp, insert_by_key_perm. by rewrite Permutation_middle.
Qed.

(** What [schedule_one] returns for an assessment. *)
Lemma schedule_one_cases (now : datetime) (a : assessment) (ts : list task) :
  schedule_one datetime plus_days isoformat now a = Ok ts ->
  (health_status a = "healthy" /\ ts = [])
  \/ (health_status a <> "healthy"
      /\ exists t, ts = [t] /\ task_device_id t = device_id a
                   /\ task_priority t = priority a
                   /\ estimated_duration_hours t = 2%Z).
Proof.
  unfold schedule_one. case_decide as Hh; [intros [= <-]; by left|].
  destruct (plus_days _ _) as [d|]; cbn; [|done].
  intros [= <-]. right. split; [done|]. by eexists.
Qed.

Lemma schedule_concat (now : datetime) (l : list assessment) (tss : list (list task)) :
  Forall2 (fun a ts => schedule_one datetime plus_days isoformat now a = Ok ts) l tss ->
  Forall2 (fun t a => task_device_id t = device_id a
                      /\ task_priority t = priority a
                      /\ estimated_duration_hours t = 2%Z)
          (concat tss) (filter (fun a => health_status a <> "healthy") l).
Proof.
  induction 1 as [|a ts l tss Ha _ IH]; [constructor|].
  rewrite filter_cons. cbn [concat].
  apply schedule_one_cases in Ha as [[Hh ->]|(Hh & t & -> & ? & ? & ?)].
  - rewrite decide_False by auto. done.
  - rewrite decide_True by done. cbn [app]. by constructor.
Qed.

Lemma Forall_filter_keep {A} (Q P : A -> Prop)
    `{!forall x, Decision (P x)} (l : list A) :
  Forall Q l -> Forall Q (filter P l).
Proof.
  rewrite !Forall_forall. intros HQ x Hx.
  apply list_elem_of_filter in Hx as [_ Hx]. auto.
Qed.

Lemma sorted_filter {A} (R : relation A) (P : A -> Prop)
    `{!forall x, Decision (P x)} (l : list A) :
  StronglySorted R l -> StronglySorted R (filter P l).
Proof.
  induction 1 as [|x l Hs IH Hall]; [constructor|].
  rewrite filter_cons. case_decide; [|done].
  constructor; [done|]. by apply Forall_filter_keep.
Qed.

(** The schedule is made from a sorted permutation of the assessments, one
    task for each one that is not healthy. *)
Lemma schedule_structure (now : datetime) (assessments : list assessment)
    (max_concurrent : Z) (tasks : list task) :
  generate_maintenance_schedule datetime plus_days isoformat now assessments
    max_concurrent = Ok tasks ->
  exists sorted,
    sorted ≡ₚ assessments
    /\ StronglySorted (fun a b => (priority_rank (priority a)
                                    <= priority_rank (priority b))%Z) sorted
    /\ Forall2 (fun t a => task_device_id t = device_id a
                           /\ task_priority t = priority a
                           /\ estimated_duration_hours t = 2%Z)
               tasks (filter (fun a => health_status a <> "healthy") sorted).
Proof.
  unfold generate_maintenance_schedule. intros H.
  destruct (mapM _ assessments) as [keyed|] eqn:Hk; cbn in H; [|done].
  destruct (mapM _ (sorted_by_key keyed)) as [tss|] eqn:Ht; cbn in H; [|done].
  injection H as <-. exists (sorted_by_key keyed).
  apply mapM_Ok_Forall2 in Hk, Ht.
  assert (Hkeys : Forall (fun p => p.1.1 = priority_rank (priority p.2)) keyed
                  /\ snd <$> keyed = assessments).
  { clear Ht. induction Hk as [|a p l k Hp _ [IH1 IH2]]; [by split|].
    cbn in Hp. unfold sort_key in Hp.
    destruct (priority_map !! priority a) as [r|] eqn:Hr; cbn in Hp; [|done].
    injection Hp as <-. split; [|cbn; by rewrite IH2].
    constructor; [|done]. cbn. unfold priority_rank. by rewrite Hr. }
  destruct Hkeys as [Hkeys Hsnd].
  destruct (sort_fold_spec keyed []) as [Hs Hp]; [constructor|].
  rewrite app_nil_r in Hp. unfold sorted_by_key in *.
  set (sk := foldl _ [] keyed) in *.
  split; [by rewrite Hp, Hsnd|]. split; [|by apply (schedule_concat now)].
  assert (Hsk : Forall (fun p => p.1.1 = priority_rank (priority p.2)) sk)
    by (by rewrite Hp).
  clear Ht Hp. induction Hs as [|p l Hs IH Hall]; [constructor|].
  apply Forall_cons in Hsk as [Hp Hl]. cbn. constructor; [by apply IH|].
  apply Forall_fmap. rewrite Forall_forall in Hall, Hl. apply Forall_forall.
  intros q Hq. cbn. rewrite <- Hp, <- (Hl q Hq). by apply Hall.
Qed.

(** X10: when [generate_maintenance_schedule] returns, its tasks are, up to
    order, exactly the assessments that are not healthy, one task of two
    hours each: a healthy device is never scheduled and every other device
    is scheduled once. *)
Theorem X10_schedule_covers_unhealthy (now : datetime)
    (assessments : list assessment) (max_concurrent : Z) (tasks : list task) :
  generate_maintenance_schedule datetime plus_days isoformat now assessments
    max_concurrent = Ok tasks ->
  task_device_id <$> tasks
    ≡ₚ device_id <$> filter (fun a => health_status a <> "healthy") assessments
  /\ Forall (fun t => estimated_duration_hours t = 2%Z) tasks.
Proof.
  intros H. destruct (schedule_structure _ _ _ _ H) as (sorted & Hp & _ & HF).
  rewrite <- Hp. split.
  - clear Hp H. induction HF as [|t a ts l (Hd & _) _ IH]; [done|].
    cbn. by rewrite Hd, IH.
  - clear Hp H. induction HF as [|t a ts l (_ & _ & Hh) _ IH]; constructor; auto.
Qed.

(** X11: when [generate_maintenance_schedule] returns, every task has
    priority high, medium or low, and the tasks come in ascending rank of
    priority (low, then medium, then high): a task of priority high never
    precedes one of priority medium or low. *)
Theorem X11_schedule_ascending_priority (now : datetime)
    (assessments : list assessment) (max_concurrent : Z) (tasks : list task) :
  generate_maintenance_schedule datetime plus_days isoformat now assessments
    max_concurrent = Ok tasks ->
  StronglySorted (fun t1 t2 => (priority_rank (task_priority t1)
                                <= priority_rank (task_priority t2))%Z) tasks
  /\ Forall (fun t => task_priority t ∈ ["high"; "medium"; "low"]) tasks.
Proof.
  intros H. pose proof H as H'.
  destruct (schedule_structure _ _ _ _ H) as (sorted & Hp & Hs & HF).
  split.
  - apply (sorted_filter _ (fun a => health_status a <> "healthy")) in Hs.
    clear Hp H H'. revert Hs.
    induction HF as [|t a ts l (_ & Hpr & _) HF' IH]; intros Hs; [constructor|].
    apply StronglySorted_inv in Hs as [Hs Hall]. constructor; [by apply IH|].
    rewrite Hpr. clear IH Hs. induction HF' as [|t' a' ts' l' (_ & Hpr' & _) _ IH];
      [constructor|].
    apply Forall_cons in Hall as [? ?]. constructor; [by rewrite Hpr'|auto].
  - assert (Hall : Forall (fun a => priority a ∈ ["high"; "medium"; "low"]) sorted).
    { rewrite Hp. unfold generate_maintenance_schedule in H'.
      destruct (mapM _ assessments) as [keyed|] eqn:Hk; [|done].
      apply mapM_Ok_Forall2 in Hk. clear H' H.
      eapply Forall2_Forall_l; [exact Hk|].
      apply Forall_forall. intros y _ x Hxy. cbn in Hxy.
      unfold sort_key in Hxy. unfold priority_map in Hxy.
      destruct (decide (priority x = "high")) as [->|?]; [set_solver|].
      destruct (decide (priority x = "medium")) as [->|?]; [set_solver|].
      destruct (decide (priority x = "low")) as [->|?]; [set_solver|].
      rewrite !lookup_insert_ne, lookup_singleton_ne in Hxy by done. done. }
    apply (Forall_filter_keep _ (fun a => health_status a <> "healthy")) in Hall.
    clear Hp Hs H H'.
    induction HF as [|t a ts l (_ & Hpr & _) _ IH]; [constructor|].
    apply Forall_cons in Hall as [? ?]. constructor; [by rewrite Hpr|auto].
Qed.
End ScheduleOrder.

(** X10 on a critical pump, a healthy lamp and a fan under warning. *)
Lemma X10_schedule_witness :
  let a1 := PredictiveMaintenanceModel.Build_assessment
              "pump" "critical" "high" 10 0.5 3 "r1" in
  let a2 := PredictiveMaintenanceModel.Build_assessment
              "lamp" "healthy" "low" 200 0 0 "r2" in
  let a3 := PredictiveMaintenanceModel.Build_assessment
              "fan" "warning" "medium" 60 0.2 1 "r3" in
  exists tasks,
    PredictiveMaintenanceModel.generate_maintenance_schedule
      float (fun now d => Ok (now + d)%float) (fun _ => "") 0%float
      [a1; a2; a3] 3 = Ok tasks
    /\ PredictiveMaintenanceModel.task_device_id <$> tasks ≡ₚ ["pump"; "fan"].
Proof.
  intros a1 a2 a3. eexists. split; [reflexivity|].
  exact (proj1 (X10_schedule_covers_unhealthy
                  float (fun now d => Ok (now + d)%float) (fun _ => "") 0%float
                  [a1; a2; a3] 3 _ eq_refl)).
Defined.

(** X11 on a critical pump and a fan under warning. *)
Lemma X11_schedule_witness :
  let a1 := PredictiveMaintenanceModel.Build_assessment
              "pump" "critical" "high" 10 0.5 3 "r1" in
  let a3 := PredictiveMaintenanceModel.Build_assessment
              "fan" "warning" "medium" 60 0.2 1 "r3" in
  exists tasks,
    PredictiveMaintenanceModel.generate_maintenance_schedule
      float (fun now d => Ok (now + d)%float) (fun _ => "") 0%float
      [a1; a3] 3 = Ok tasks
    /\ Forall (fun t => PredictiveMaintenanceModel.task_priority t
                        ∈ ["high"; "medium"; "low"]) tasks.
Proof.
  intros a1 a3. eexists. split; [reflexivity|].
  exact (proj2 (X11_schedule_ascending_priority
                  float (fun now d => Ok (now + d)%float) (fun _ => "") 0%float
                  [a1; a3] 3 _ eq_refl)).
Defined.

(** ** Occupancy events and durations *)

Section OccupancyMore.
Import OccupancyDetectionModel.
Context {T : Type}.
Implicit Types (events : list (event T)).

Lemma alternating_snoc events (e : event T) :
  alternating events ->
  (forall e0, last events = Some e0 -> event_name e0 <> event_name e) ->
  alternating (events ++ [e]).
Proof.
  induction events as [|e1 [|e2 rest] IH]; intros Ha Hl.
  - done.
  - cbn. split; [|done]. by apply Hl.
  - destruct Ha as [Hne Ha]. split; [done|]. apply IH; [done|].
    intros e0 He0. apply Hl. by rewrite last_cons_cons.
Qed.

Lemma change_step_alternating (threshold : float)
    (st : option bool) events (x : float * T) :
  alternating events ->
  match st with
  | None => events = []
  | Some cs => emitted_state events = Some cs
  end ->
  let after := change_step threshold (st, events) x in
  alternating after.2
  /\ match after.1 with
     | None => after.2 = []
     | Some cs => emitted_state after.2 = Some cs
     end.
Proof.
  intros Ha Hst. destruct x as [p t]. cbn.
  destruct st as [cs|].
  - destruct (negb (Bool.eqb (threshold <=? p)%float cs)) eqn:Hneq; cbn; [|done].
    split; [|apply emitted_state_snoc].
    apply alternating_snoc; [done|]. intros e0 He0.
    unfold emitted_state in Hst. rewrite He0 in Hst. cbn in Hst.
    injection Hst as Hst. cbn.
    destruct (threshold <=? p)%float, cs; try done; cbn.
    + apply bool_decide_eq_false in Hst. done.
    + apply bool_decide_eq_true in Hst. by rewrite Hst.
  - subst events. cbn. split; [done|]. exact (emitted_state_snoc [] t p _).
Qed.

(** X12: in the list returned by [detect_occupancy_change] no two
    successive events carry the same name: the events alternate between
    occupied and unoccupied. *)
Theorem X12_events_alternate (occupied_probs : list float) (timestamps : list T)
    (threshold : float) :
  alternating (detect_occupancy_change occupied_probs timestamps threshold).
Proof.
  unfold detect_occupancy_change. generalize (zip occupied_probs timestamps).
  intros rows.
  cut (alternating (foldl (change_step threshold) (None, []) rows).2
       /\ match (foldl (change_step threshold) (None, []) rows).1 with
          | None => (foldl (change_step threshold) (None, []) rows).2 = []
          | Some cs =>
              emitted_state (foldl (change_step threshold) (None, []) rows).2
              = Some cs
          end); [by intros [? _]|].
  induction rows as [|x rows IH] using rev_ind; [done|].
  rewrite foldl_app. cbn [foldl].
  destruct (foldl (change_step threshold) (None, []) rows) as [st evs].
  destruct IH as [Ha Hst]. by apply change_step_alternating.
Qed.

Lemma sum_list_snoc (l : list nat) (x : nat) :
  sum_list (l ++ [x]) = sum_list l + x.
Proof. induction l as [|y l IH]; cbn; [lia|]. rewrite IH. lia. Qed.

Lemma filter_none {A} (P : A -> Prop) `{!forall x, Decision (P x)} (l : list A) :
  Forall (fun x => ~ P x) l -> filter P l = [].
Proof.
  induction 1 as [|x l Hx _ IH]; [done|].
  by rewrite filter_cons, decide_False.
Qed.

Lemma duration_loop (labels : list Z) (durations : list nat) (current : nat) :
  sum_list (foldl duration_step (durations, current) labels).1
    + (foldl duration_step (durations, current) labels).2
  = sum_list durations + current + length (filter (fun x => x = 1%Z) labels)
  /\ (Forall (fun d => 0 < d) durations ->
      Forall (fun d => 0 < d) (foldl duration_step (durations, current) labels).1).
Proof.
  revert durations current. induction labels as [|x labels IH];
    intros durations current; [cbn; split; [lia|done]|].
  cbn [foldl]. rewrite filter_cons. unfold duration_step at 2 4 6.
  destruct (x =? 1)%Z eqn:Hx.
  - apply Z.eqb_eq in Hx. rewrite decide_True by done.
    destruct (IH durations (current + 1)) as [Hs Hp]. split; [|exact Hp].
    rewrite Hs. cbn. lia.
  - apply Z.eqb_neq in Hx. rewrite decide_False by done.
    destruct (0 <? current)%nat eqn:Hc.
    + apply Nat.ltb_lt in Hc.
      destruct (IH (durations ++ [current]) 0) as [Hs Hp]. split.
      * rewrite Hs, sum_list_snoc. lia.
      * intros Hd. apply Hp, Forall_app. split; [done|]. by repeat constructor.
    + apply Nat.ltb_ge in Hc. destruct (IH durations current) as [Hs Hp].
      split; [exact Hs|exact Hp].
Qed.

(** X13: the occupancy periods that [_calculate_avg_duration] averages
    have positive lengths that add up to the number of labels equal to 1;
    there is no period exactly when no label is 1, and then the function
    returns 0 without calling the mean. *)
Theorem X13_occupancy_durations (mean : list nat -> float) (labels : list Z) :
  let durations := occupancy_durations labels in
  sum_list durations = length (filter (fun x => x = 1%Z) labels)
  /\ Forall (fun d => 0 < d) durations
  /\ (durations = [] <-> Forall (fun x => x <> 1%Z) labels)
  /\ _calculate_avg_duration mean labels
     = (if decide (Forall (fun x => x <> 1%Z) labels) then 0%float
        else mean durations).
Proof.
  intros durations.
  assert (Hsum : sum_list durations = length (filter (fun x => x = 1%Z) labels)
                 /\ Forall (fun d => 0 < d) durations).
  { unfold durations, occupancy_durations.
    destruct (duration_loop labels [] 0) as [Hs Hp].
    destruct (foldl duration_step ([], 0) labels) as [ds cur]. cbn in Hs, Hp.
    destruct (0 <? cur)%nat eqn:Hc.
    - apply Nat.ltb_lt in Hc. rewrite sum_list_snoc. split; [lia|].
      apply Forall_app. split; [by apply Hp|by repeat constructor].
    - apply Nat.ltb_ge in Hc. split; [lia|by apply Hp]. }
  destruct Hsum as [Hsum Hpos].
  assert (Hempty : durations = [] <-> Forall (fun x => x <> 1%Z) labels).
  { split.
    - intros Hd. rewrite Hd in Hsum. cbn in Hsum.
      apply Forall_forall. intros x Hx ->.
      assert (Hin : 1%Z ∈ filter (fun x => x = 1%Z) labels)
        by (by apply list_elem_of_filter).
      destruct (filter _ labels); [by apply elem_of_nil in Hin|done].
    - intros Hall.
      assert (Hf : filter (fun x => x = 1%Z) labels = []).
      { by apply filter_none. }
      rewrite Hf in Hsum. cbn in Hsum.
      destruct durations as [|d ds]; [done|].
      apply Forall_cons in Hpos as [Hd _]. cbn in Hsum. lia. }
  split; [done|]. split; [done|]. split; [done|].
  unfold _calculate_avg_duration. fold durations.
  destruct (decide (durations = [])) as [Hd|Hd].
  - by rewrite decide_True by (by apply Hempty).
  - rewrite decide_False; [done|]. by rewrite <- Hempty.
Qed.
End OccupancyMore.

(** ** Time series forecaster: scaling, windows and iterated forecasts *)

Section ForecasterMore.
Import TimeSeriesForecaster.
Variable sqrt : Qc -> Qc.


(** X15: [create_sequences] yields [len(data) + 1 - (window_size +
    forecast_horizon)] pairs (none when the series is shorter); the [i]-th
    window has [window_size] points, its target [forecast_horizon] points,
    and the window followed by its target is the stretch of the series that
    starts at [i]. *)
Theorem X15_create_sequences_windows (st : forecaster) (data : list Qc) :
  let X := (create_sequences st data).1 in
  let y := (create_sequences st data).2 in
  length X = length data + 1 - (window_size st + forecast_horizon st)
  /\ length y = length X
  /\ forall i, i < length X ->
       exists x t, X !! i = Some x /\ y !! i = Some t
         /\ length x = window_size st /\ length t = forecast_horizon st
         /\ x ++ t = take (window_size st + forecast_horizon st) (drop i data).
Proof.
  intros X y. unfold X, y, create_sequences. cbn [fst snd].
  set (n := Z.to_nat _).
  rewrite !length_fmap, !length_seq.
  split; [lia|]. split; [done|]. intros i Hi.
  eexists _, _. rewrite !list_lookup_fmap, !lookup_seq_lt by done. cbn.
  split; [done|]. split; [done|].
  rewrite !length_take, !length_drop.
  split; [lia|]. split; [lia|].
  rewrite <- drop_drop. apply take_take_drop.
Qed.
End ForecasterMore.

Section ForecasterIter.
Import TimeSeriesForecaster.
Variable sqrt : Qc -> Qc.








(** X17: [forecast_iterative] asked for no steps returns the empty list
    whatever the forecaster; asked for at least one step, it raises
    [TypeError] on a forecaster without weights, and [IndexError] on a
    trained forecaster whose horizon is 0 (the weights have no column 0). *)
Theorem X17_forecast_iterative_errors (st : forecaster)
    (recent_data : list Qc) (steps : nat) :
  forecast_iterative st recent_data 0 = Ok []
  /\ (weights st = None ->
      forecast_iterative st recent_data (S steps) = Raise TypeError)
  /\ (trained st -> forecast_horizon st = 0 ->
      forecast_iterative st recent_data (S steps) = Raise IndexError).
Proof.
  split; [done|]. split.
  - intros HW. unfold forecast_iterative. cbn [repeat_result].
    unfold iterative_step. rewrite HW. done.
  - intros (W & b & HW & Hb & H0 & H1 & Hlen) Hfh. cbn in *.
    unfold forecast_iterative. cbn [repeat_result].
    unfold iterative_step. rewrite HW. unfold first_column.
    rewrite decide_True by lia. done.
Qed.

Lemma anomaly_at_cases (st : forecaster) (data : list Qc) (thr : Qc) (i : nat) :
  anomaly_at st data thr i = []
  \/ exists z, anomaly_at st data thr i = [(i, z)]
               /\ i < length data /\ (thr < z)%Qc.
Proof.
  unfold anomaly_at.
  destruct (forecast st _).2 as [[|f0 f]|e]; [by left| |by left].
  destruct (data !! i) as [actual|] eqn:Hi; [|by left].
  case_decide; [by left|]. case_decide; [|by left].
  right. eexists. split; [done|]. split; [|done].
  by eapply lookup_lt_Some.
Qed.

Lemma detect_loop (st : forecaster) (data : list Qc) (thr : Qc) (k n : nat) :
  let out := concat (anomaly_at st data thr <$> seq k n) in
  Forall (fun p => k <= p.1 < k + n /\ p.1 < length data /\ (thr < p.2)%Qc) out
  /\ StronglySorted lt (fst <$> out).
Proof.
  revert k. induction n as [|n IH]; intros k; cbn.
  - split; constructor.
  - destruct (IH (S k)) as [Hall Hsorted]. cbn zeta in Hall, Hsorted.
    assert (Hall' : Forall (fun p => k < p.1 /\ (k <= p.1 < k + S n
                                      /\ p.1 < length data /\ (thr < p.2)%Qc))
              (concat (anomaly_at st data thr <$> seq (S k) n))).
    { eapply Forall_impl; [exact Hall|]. cbn. intros p (Hp & Hd & Hz).
      repeat split; try lia; done. }
    destruct (anomaly_at_cases st data thr k) as [->|(z & -> & Hk & Hz)]; cbn.
    + split; [|done]. eapply Forall_impl; [exact Hall'|]. cbn. tauto.
    + split.
      * constructor; [cbn; split; [lia|done]|].
        eapply Forall_impl; [exact Hall'|]. cbn. tauto.
      * constructor; [done|]. apply Forall_fmap.
        eapply Forall_impl; [exact Hall'|]. cbn. tauto.
Qed.

Lemma forecast_untrained (st : forecaster) (recent_data : list Qc) :
  weights st = None ->
  (forecast st recent_data).2 = Ok []
  \/ exists e, (forecast st recent_data).2 = Raise e.
Proof.
  intros HW. unfold forecast. case_decide; [right; by eexists|].
  rewrite HW. cbn [snd]. case_decide as Hn; [|right; by eexists].
  cbn [mbind result_bind]. left. by destruct (bias st).
Qed.

(** X18: every pair [detect_anomalies] reports has an index between
    [window_size] and the end of the series and a score above the threshold;
    the indices are strictly increasing; and a forecaster without weights
    reports nothing, every failure of [forecast] being swallowed. *)
Theorem X18_detect_anomalies_report (st : forecaster) (data : list Qc)
    (threshold : Qc) :
  let out := detect_anomalies st data threshold in
  Forall (fun p => window_size st <= p.1 < length data
                   /\ (threshold < p.2)%Qc) out
  /\ StronglySorted lt (fst <$> out)
  /\ (weights st = None -> out = []).
Proof.
  intros out. unfold out, detect_anomalies.
  destruct (detect_loop st data threshold (window_size st)
              (length data - window_size st)) as [Hall Hsorted].
  cbn zeta in Hall, Hsorted.
  split; [|split; [done|]].
  - eapply Forall_impl; [exact Hall|]. cbn. intros p (Hp & Hd & Hz).
    repeat split; try lia; done.
  - intros HW.
    assert (Hnone : forall i, anomaly_at st data threshold i = []).
    { intros i. unfold anomaly_at. cbn zeta.
      destruct (forecast_untrained st
                  (take (window_size st) (drop (i - window_size st) data)) HW)
        as [H|[e H]]; by rewrite H. }
    clear Hall Hsorted.
    induction (seq _ _) as [|i l IH]; cbn; [done|]. by rewrite Hnone.
Qed.
End ForecasterIter.

Section ConstantAnomalies.
Import TimeSeriesForecaster.
Variable sqrt : Qc -> Qc.
Hypothesis sqrt_0 : sqrt 0%Qc = 0%Qc.




End ConstantAnomalies.



(** ** Deployments: lookups and metrics *)

Section DeploymentLookup.
Import ModelDeploymentService.
Implicit Types (s : store) (l : list ModelDeployment).

(** The record [get_active_deployment] returns is the last one of the
    environment's list that is active for the model. *)
Lemma get_active_deployment_last s (env name : string) (i : nat) d :
  get_active_deployment s env name = Some (i, d)
  <-> exists l, s !! env = Some l /\ l !! i = Some d
        /\ (model_name d = name /\ status d = "active")
        /\ forall j y, l !! j = Some y -> i < j ->
             ~ (model_name y = name /\ status y = "active").
Proof.
  unfold get_active_deployment. split.
  - destruct (s !! env) as [l|]; [|done]. cbn.
    destruct (list_find _ (reverse l)) as [[j d']|] eqn:Hf; [|done]. cbn.
    intros [= <- <-]. apply list_find_Some in Hf as (Hj & HP & Hlater).
    apply reverse_lookup_Some in Hj as [Hj Hlt].
    exists l. replace (length l - 1 - j) with (length l - S j) by lia.
    split; [done|]. split; [done|]. split; [done|].
    intros k y Hk Hik. pose proof (lookup_lt_Some _ _ _ Hk) as Hkl.
    apply (Hlater (length l - S k)); [|lia].
    apply reverse_lookup_Some. split; [|lia].
    by replace (length l - S (length l - S k)) with k by lia.
  - intros (l & -> & Hi & HP & Hlater). cbn.
    pose proof (lookup_lt_Some _ _ _ Hi) as Hil.
    assert (Hf : list_find (fun d => model_name d = name /\ status d = "active")
                   (reverse l) = Some (length l - S i, d)).
    { apply list_find_Some. split; [|split; [done|]].
      - apply reverse_lookup_Some. split; [|lia].
        by replace (length l - S (length l - S i)) with i by lia.
      - intros j y Hj Hlt. apply reverse_lookup_Some in Hj as [Hj Hjl].
        apply (Hlater _ _ Hj). lia. }
    rewrite Hf. cbn. do 2 f_equal. lia.
Qed.

Lemma get_active_deployment_absent s (env name : string) :
  get_active_deployment s env name = None
  <-> forall l d, s !! env = Some l -> d ∈ l ->
        ~ (model_name d = name /\ status d = "active").
Proof.
  unfold get_active_deployment. destruct (s !! env) as [l|]; cbn.
  - destruct (list_find _ (reverse l)) as [[j d']|] eqn:Hf; cbn.
    + split; [done|]. intros H. exfalso.
      apply list_find_Some in Hf as (Hj & HP & _).
      apply reverse_lookup_Some in Hj as [Hj _].
      apply (H l d' eq_refl); [|done]. by eapply list_elem_of_lookup_2.
    + split; [|done]. intros _ l' d [= <-] Hd.
      apply list_find_None in Hf. rewrite Forall_reverse, Forall_forall in Hf.
      by apply Hf.
  - split; [|done]. by intros _ l d.
Qed.

(** X20: [get_active_deployment] returns the latest record of the
    environment that is active for the model (no later record is), and
    returns nothing exactly when the environment holds no active record of
    the model (or is unknown). *)
Theorem X20_get_active_deployment_latest s (env name : string) :
  match get_active_deployment s env name with
  | Some (i, d) =>
      default [] (s !! env) !! i = Some d
      /\ model_name d = name /\ status d = "active"
      /\ forall j y, default [] (s !! env) !! j = Some y -> i < j ->
           ~ (model_name y = name /\ status y = "active")
  | None =>
      forall d, d ∈ default [] (s !! env) ->
        ~ (model_name d = name /\ status d = "active")
  end.
Proof.
  destruct (get_active_deployment s env name) as [[i d]|] eqn:Hg.
  - apply get_active_deployment_last in Hg as (l & -> & Hi & [Hm Hs] & Hlater).
    done.
  - intros d Hd. destruct (s !! env) as [l|] eqn:Hl; cbn in Hd.
    + eapply get_active_deployment_absent; eauto.
    + by apply elem_of_nil in Hd.
Qed.

(** X21: [update_metrics] without an active deployment of the model leaves
    the store as it was; otherwise the active deployment stays the active
    one, at the same position, its metrics read the new value for every key
    given and the old value for every other key, and no other record and no
    other environment changes. *)
Theorem X21_update_metrics (s : store) (env name : string)
    (new : gmap string metric) :
  let s' := update_metrics s env name new in
  match get_active_deployment s env name with
  | Some (i, d) =>
      get_active_deployment s' env name = Some (i, update_metrics_of new d)
      /\ (forall k, metrics (update_metrics_of new d) !! k
                    = match new !! k with
                      | Some v => Some v
                      | None => metrics d !! k
                      end)
      /\ (forall l, s !! env = Some l ->
            exists l', s' !! env = Some l' /\ length l' = length l
              /\ forall j, j <> i -> l' !! j = l !! j)
      /\ (forall env', env' <> env -> s' !! env' = s !! env')
  | None => s' = s
  end.
Proof.
  intros s'. unfold s', update_metrics.
  destruct (get_active_deployment s env name) as [[i d]|] eqn:Hg; [|done].
  apply get_active_deployment_last in Hg as (l & Hl & Hi & HP & Hlater).
  split; [|split; [|split]].
  - apply get_active_deployment_last.
    exists (alter (update_metrics_of new) i l).
    rewrite lookup_alter_eq, Hl. split; [done|].
    rewrite list_lookup_alter_eq, Hi. split; [done|]. split; [done|].
    intros j y Hj Hij. rewrite list_lookup_alter_ne in Hj by lia. eauto.
  - intros k. cbn. rewrite lookup_union.
    destruct (new !! k), (metrics d !! k); done.
  - intros l0 Hl0. rewrite Hl in Hl0. injection Hl0 as <-.
    exists (alter (update_metrics_of new) i l).
    rewrite lookup_alter_eq, Hl. split; [done|].
    split; [by rewrite length_alter|].
    intros j Hj. by rewrite list_lookup_alter_ne.
  - intros env' Hne. by rewrite lookup_alter_ne.
Qed.
End DeploymentLookup.

(** ** Version numbers *)

Section VersionStrings.
Import ModelVersioningService.

Lemma split_on_nonempty (sep : ascii) (s : string) : split_on sep s <> [].
Proof.
  induction s as [|c s IH]; cbn; [done|].
  destruct (split_on sep s) as [|w ws]; [done|]. by destruct (Ascii.eqb c sep).
Qed.

Lemma split_on_single (sep : ascii) (a : string) :
  sep ∉ list_ascii_of_string a -> split_on sep a = [a].
Proof.
  induction a as [|c a IH]; cbn; [done|]. intros Hsep.
  rewrite IH by (intros H; apply Hsep; by right).
  destruct (Ascii.eqb_spec c sep) as [->|Hne]; [|done].
  exfalso. apply Hsep. by left.
Qed.

Lemma split_on_app (sep : ascii) (a r : string) :
  sep ∉ list_ascii_of_string a ->
  split_on sep (a +:+ String sep r) = a :: split_on sep r.
Proof.
  induction a as [|c a IH]; intros Hsep.
  - change ("" +:+ String sep r) with (String sep r). cbn [split_on].
    pose proof (split_on_nonempty sep r) as Hr.
    destruct (split_on sep r) as [|w ws]; [done|].
    by rewrite Ascii.eqb_refl.
  - change (String c a +:+ String sep r) with (String c (a +:+ String sep r)).
    cbn [split_on]. cbn in Hsep.
    rewrite IH by (intros H; apply Hsep; by right).
    destruct (Ascii.eqb_spec c sep) as [->|Hne]; [|done].
    exfalso. apply Hsep. by left.
Qed.

Lemma digit_of_pretty_N_char (d : N) :
  (d < 10)%N -> digit_of (pretty_N_char d) = Some (Z.of_N d).
Proof.
  intros Hd.
  assert (d = 0 \/ d = 1 \/ d = 2 \/ d = 3 \/ d = 4 \/ d = 5 \/ d = 6
          \/ d = 7 \/ d = 8 \/ d = 9)%N as H by lia.
  repeat (destruct H as [->|H]; [reflexivity|]). by subst.
Qed.

(** The characters [pretty_N_go] puts in front of its accumulator are the
    decimal digits of the number, as [int] reads them. *)
Lemma pretty_N_go_digits (x : N) :
  exists ds,
    Forall (fun c => is_Some (digit_of c)) ds
    /\ ((0 < x)%N -> ds <> [])
    /\ (forall s, list_ascii_of_string (pretty_N_go x s)
                  = ds ++ list_ascii_of_string s)
    /\ (forall acc b rest,
          int_digits acc b (ds ++ rest)
          = int_digits (acc * 10 ^ Z.of_nat (length ds) + Z.of_N x)%Z
              (match ds with [] => b | _ => true end) rest).
Proof.
  induction (N.lt_wf_0 x) as [x _ IH].
  assert (x = 0 \/ 0 < x)%N as [->|Hx] by lia.
  - exists []. split; [constructor|]. split; [lia|]. split; [done|].
    intros acc b rest. cbn. f_equal. lia.
  - destruct (IH (x `div` 10)%N) as (ds & Hall & Hne & Hchars & Hint).
    { by apply N.div_lt. }
    exists (ds ++ [pretty_N_char (x `mod` 10)]).
    split; [|split; [|split]].
    + apply Forall_app. split; [done|]. constructor; [|constructor].
      rewrite digit_of_pretty_N_char by (by apply N.mod_lt). by eexists.
    + intros _. by destruct ds.
    + intros s. rewrite pretty_N_go_step by done. rewrite Hchars.
      by rewrite <- app_assoc.
    + intros acc b rest. rewrite <- app_assoc. cbn [app].
      rewrite Hint. cbn [int_digits].
      rewrite digit_of_pretty_N_char by (by apply N.mod_lt).
      rewrite length_app. cbn [length].
      replace (match ds ++ [pretty_N_char (x `mod` 10)] with
               | [] => b | _ => true end) with true by (by destruct ds).
      f_equal.
      rewrite Nat2Z.inj_add, Z.pow_add_r by lia.
      pose proof (N.div_mod x 10) as Hdm.
      assert (Z.of_N x = 10 * Z.of_N (x `div` 10) + Z.of_N (x `mod` 10))%Z
        by lia.
      change (Z.of_nat 1) with 1%Z. lia.
Qed.

Lemma digit_not_space (c : ascii) :
  is_Some (digit_of c) -> is_space c = false.
Proof.
  unfold digit_of, is_space. cbn zeta. intros [d Hd].
  destruct (48 <=? nat_of_ascii c)%nat eqn:H1; [|done].
  destruct (nat_of_ascii c <=? 57)%nat eqn:H2; [|done].
  apply Nat.leb_le in H1, H2.
  apply orb_false_iff. split; apply andb_false_iff; rewrite !Nat.leb_gt; lia.
Qed.

Lemma lstrip_digits (ds : list ascii) :
  Forall (fun c => is_Some (digit_of c)) ds -> lstrip ds = ds.
Proof.
  intros [|c ds' Hc _]; [done|]. cbn. by rewrite digit_not_space.
Qed.

(** A string of digits is read by [int] without sign handling. *)
Lemma int_of_digits (s : string) :
  Forall (fun c => is_Some (digit_of c)) (list_ascii_of_string s) ->
  int_of_string s = int_digits 0 false (list_ascii_of_string s).
Proof.
  intros Hall. unfold int_of_string.
  rewrite (lstrip_digits (reverse (list_ascii_of_string s)))
    by (by rewrite Forall_reverse).
  rewrite reverse_involutive, lstrip_digits by done.
  destruct (list_ascii_of_string s) as [|c ds]; [done|].
  apply Forall_cons_1 in Hall as [[d Hd] _].
  destruct c as [[] [] [] [] [] [] [] []]; try reflexivity;
    vm_compute in Hd; discriminate.
Qed.

(** [str] of a natural number, read back by [int]. *)
Lemma pretty_nat_digits (n : nat) :
  Forall (fun c => is_Some (digit_of c))
         (list_ascii_of_string (pretty (Z.of_nat n)))
  /\ int_of_string (pretty (Z.of_nat n)) = Some (Z.of_nat n).
Proof.
  destruct n as [|n].
  - split; [|reflexivity]. repeat constructor. by eexists.
  - assert (Hp : pretty (Z.of_nat (S n))
                 = pretty_N_go (N.pos (Pos.of_succ_nat n)) "").
    { reflexivity. }
    destruct (pretty_N_go_digits (N.pos (Pos.of_succ_nat n)))
      as (ds & Hall & Hne & Hchars & Hint).
    assert (Hds : list_ascii_of_string (pretty (Z.of_nat (S n))) = ds).
    { rewrite Hp, Hchars. cbn. by rewrite app_nil_r. }
    split; [by rewrite Hds|].
    rewrite int_of_digits by (by rewrite Hds). rewrite Hds.
    specialize (Hint 0%Z false []). rewrite app_nil_r in Hint.
    rewrite Hint. destruct ds as [|c ds]; [by destruct Hne|].
    cbn [int_digits]. f_equal; cbn; lia.
Qed.

Lemma digits_no_dot (s : string) :
  Forall (fun c => is_Some (digit_of c)) (list_ascii_of_string s) ->
  "."%char ∉ list_ascii_of_string s.
Proof.
  intros Hall Hin. rewrite Forall_forall in Hall.
  destruct (Hall _ Hin) as [d Hd]. discriminate.
Qed.

(** A version made of three printed numbers splits into these numbers. *)
Lemma version_parts (major minor patch : nat) :
  int_of_string
    <$> split_on "." (pretty (Z.of_nat major) +:+ "." +:+ pretty (Z.of_nat minor)
                        +:+ "." +:+ pretty (Z.of_nat patch))
  = [Some (Z.of_nat major); Some (Z.of_nat minor); Some (Z.of_nat patch)].
Proof.
  destruct (pretty_nat_digits major) as [Ha Hia].
  destruct (pretty_nat_digits minor) as [Hb Hib].
  destruct (pretty_nat_digits patch) as [Hc Hic].
  assert (Hdot : forall x, "." +:+ x = String "." x) by done.
  rewrite !Hdot.
  rewrite split_on_app by (by apply digits_no_dot).
  rewrite split_on_app by (by apply digits_no_dot).
  rewrite split_on_single by (by apply digits_no_dot).
  cbn [fmap list_fmap]. by rewrite Hia, Hib, Hic.
Qed.

(** X22: on a version string made of three decimal numbers,
    [_generate_version]'s increment keeps major and minor and adds one to
    the patch number: what it prints is read back by [int] as printed. *)
Theorem X22_bump_patch (major minor patch : nat) :
  let str n := pretty (Z.of_nat n) in
  bump_patch (str major +:+ "." +:+ str minor +:+ "." +:+ str patch)
  = Ok (str major +:+ "." +:+ str minor +:+ "." +:+ str (S patch)).
Proof.
  intros str. unfold bump_patch, str. rewrite version_parts.
  by rewrite Nat2Z.inj_succ.
Qed.

Section AutoVersions.
Variable file_sha256 : string -> result string.

(** X23: on a model the store does not know, with a readable file, [n]
    registrations without an explicit version are numbered 1.0.0, 1.0.1,
    ..., in order. *)
Theorem X23_automatic_versions (s : store) (name path sum : string)
    (clock : nat -> string) (n : nat) :
  file_sha256 path = Ok sum -> s !! name = None ->
  version <$> list_versions (register_auto file_sha256 s name path clock n) name
  = (fun k => "1.0." +:+ pretty (Z.of_nat k)) <$> seq 0 n.
Proof.
  intros Hsum Hnew. induction n as [|n IH].
  - unfold list_versions. cbn. by rewrite Hnew.
  - cbn [register_auto]. set (s' := register_auto _ _ _ _ _ n) in *.
    unfold register_version. rewrite generate_version_last.
    fold (list_versions s' name).
    assert (Hlast : match last (list_versions s' name) with
                    | None => Ok "1.0.0"
                    | Some latest => bump_patch (version latest)
                    end = Ok ("1.0." +:+ pretty (Z.of_nat n))).
    { pose proof (fmap_last version (list_versions s' name)) as Hl.
      rewrite IH in Hl. destruct n as [|m].
      - cbn in Hl. by destruct (last _).
      - rewrite seq_S, fmap_app, list_fmap_singleton, last_snoc in Hl.
        cbn in Hl.
        destruct (last _) as [latest|]; [|done]. injection Hl as Hl.
        rewrite <- Hl. unfold bump_patch.
        change ("1.0." +:+ pretty (Z.of_nat m))
          with (pretty (Z.of_nat 1) +:+ "." +:+ pretty (Z.of_nat 0)
                  +:+ "." +:+ pretty (Z.of_nat m)).
        rewrite version_parts, (Nat2Z.inj_succ m). reflexivity. }
    rewrite Hlast. cbn [mbind result_bind]. rewrite Hsum.
    cbn [mbind result_bind fst]. rewrite append_in_map.
    unfold list_versions at 1. rewrite lookup_insert_eq. cbn [default].
    fold (list_versions s' name).
    unfold id. rewrite fmap_app, IH, seq_S, fmap_app, !list_fmap_singleton.
    done.
Qed.
End AutoVersions.
End VersionStrings.

(** X23 on three automatic registrations. *)
Lemma X23_automatic_versions_witness :
  ModelVersioningService.version
    <$> ModelVersioningService.list_versions
          (ModelVersioningService.register_auto (fun _ => Ok "00") ∅
             "m" "m.pkl" (fun _ => "t") 3) "m"
  = ["1.0.0"; "1.0.1"; "1.0.2"].
Proof.
  exact (X23_automatic_versions (fun _ => Ok "00") ∅ "m" "m.pkl" "00"
           (fun _ => "t") 3 eq_refl eq_refl).
Defined.
